(** * redissession: the cryptographic envelope and the Redis session store

    A shallow embedding of [cipher.go], [session.go], the cookie options and
    the [RedisStore] of the package, together with the Go library functions
    they call.  Library code that the package only calls through an
    interface (the AEAD cipher, HMAC-SHA256, the JSON encoder of the
    session record) is a parameter with its contract; library code whose
    behaviour decides a result of the package (base64, the constant-time
    comparison, the Redis key space, the clock, the entropy source) is
    written out. *)

From Stdlib Require Import ZArith NArith List Lia Bool.
From Stdlib.Strings Require Import String Ascii Byte.
From stdpp Require Import base gmap strings list.

Local Open Scope Z_scope.

(** ** Bytes *)

Abbreviation bytes := (list byte).

#[global] Instance byte_eq_dec : EqDecision byte.
Proof. intros a b. destruct (Byte.eqb a b) eqn:E.
  - left. now apply Byte.byte_dec_bl.
  - right. intros ->. now rewrite (Byte.byte_dec_lb eq_refl) in E.
Defined.

Definition byte_val (b : byte) : Z := Z.of_N (Byte.to_N b).

(** Conversion [byte(z)] of Go: the low eight bits. *)
Definition byte_of_Z (z : Z) : byte :=
  default x00 (Byte.of_N (Z.to_N (z mod 256))).

(** [[]byte(s)] and [string(b)]: a Go string is its bytes. *)
Definition bytes_of_string (s : string) : bytes := list_byte_of_string s.
Definition string_of_bytes (b : bytes) : string := string_of_list_byte b.
Arguments bytes_of_string : simpl never.
Arguments string_of_bytes : simpl never.

(** ** Errors

    The sentinels of the package, the wrapping of [fmt.Errorf("...: %w")],
    and the library errors that reach the package. *)

Inductive error : Type :=
  | ErrSessionNotFound
  | ErrStoreNotFound
  | ErrInvalidSessionData
  | ErrEncryptionFailed
  | ErrSignatureInvalid
  | ErrSessionExpired
  | ErrInvalidConfiguration
  | ErrWrap (msg : string) (cause : error)   (* fmt.Errorf(msg ++ ": %w", cause) *)
  | CorruptInputError                        (* encoding/base64 *)
  | ErrUnexpectedEOF                         (* io.ReadFull on the entropy source *)
  | ErrJSON (msg : string)                   (* encoding/json *)
  | ErrNoCookie                              (* net/http *)
  | RedisNil                                 (* redis.Nil: the key does not exist *)
  | ErrReply (msg : string)                  (* an error reply of the server *)
  | ErrNetwork (msg : string).               (* transport errors of the client *)

#[global] Instance error_eq_dec : EqDecision error.
Proof. intros a b. unfold Decision. decide equality; apply String.string_dec. Defined.

(** [errors.Is]: walks the [%w] chain. *)
Fixpoint errors_Is (err target : error) : bool :=
  if decide (err = target) then true
  else match err with
       | ErrWrap _ cause => errors_Is cause target
       | _ => false
       end.

Inductive result (A : Type) : Type :=
  | Ok (a : A)
  | Err (e : error).
Arguments Ok {A} a.
Arguments Err {A} e.

Definition is_Ok {A} (r : result A) : bool :=
  match r with Ok _ => true | Err _ => false end.

(** ** encoding/base64 *)

Module base64.

Definition encodeStd : string :=
  "ABCDEFGHIJKLMNOPQRSTUVWXYZabcdefghijklmnopqrstuvwxyz0123456789+/".
Definition encodeURL : string :=
  "ABCDEFGHIJKLMNOPQRSTUVWXYZabcdefghijklmnopqrstuvwxyz0123456789-_".

Record Encoding : Type := {
  encode : string;            (* the 64 characters *)
  padChar : option ascii      (* [None] is NoPadding *)
}.

Definition StdEncoding : Encoding :=
  {| encode := encodeStd; padChar := Some "="%char |}.
Definition RawURLEncoding : Encoding :=
  {| encode := encodeURL; padChar := None |}.

(** [enc.encode[i]] *)
Definition enc_char (enc : Encoding) (i : Z) : ascii :=
  default "000"%char (String.get (Z.to_nat i) (encode enc)).

Fixpoint find_index (c : ascii) (s : string) (i : Z) : option Z :=
  match s with
  | EmptyString => None
  | String c' s' => if decide (c = c') then Some i else find_index c s' (i + 1)
  end.

(** [enc.decodeMap[c]], [None] for the invalid marker 0xFF. *)
Definition dec_char (enc : Encoding) (c : ascii) : option Z :=
  find_index c (encode enc) 0.

Definition pad (enc : Encoding) (n : nat) : list ascii :=
  match padChar enc with
  | Some p => repeat p n
  | None => []
  end.

(** The i-th six-bit group of a 24-bit quantum, [val >> (18 - 6i) & 0x3F]. *)
Definition sextet (val : Z) (shift : Z) : Z := (val / 2 ^ shift) mod 64.

Fixpoint Encode (enc : Encoding) (src : bytes) : list ascii :=
  match src with
  | [] => []
  | [b0] =>
      let val := byte_val b0 * 65536 in
      [enc_char enc (sextet val 18); enc_char enc (sextet val 12)] ++ pad enc 2
  | [b0; b1] =>
      let val := byte_val b0 * 65536 + byte_val b1 * 256 in
      [enc_char enc (sextet val 18); enc_char enc (sextet val 12);
       enc_char enc (sextet val 6)] ++ pad enc 1
  | b0 :: b1 :: b2 :: rest =>
      let val := byte_val b0 * 65536 + byte_val b1 * 256 + byte_val b2 in
      enc_char enc (sextet val 18) :: enc_char enc (sextet val 12) ::
      enc_char enc (sextet val 6) :: enc_char enc (sextet val 0) ::
      Encode enc rest
  end.

Definition EncodeToString (enc : Encoding) (src : bytes) : string :=
  string_of_list_ascii (Encode enc src).

(** The decoder skips carriage returns and line feeds wherever they are. *)
Definition is_newline (c : ascii) : bool :=
  if decide (c = "010"%char) then true
  else if decide (c = "013"%char) then true else false.

Definition quantum (s0 s1 s2 s3 : Z) : Z :=
  s0 * 262144 + s1 * 4096 + s2 * 64 + s3.

(** Decoding, quantum by quantum.  With padding, it is only accepted in
    the last quantum, as [xx==] or [xxx=]; without, the last quantum may
    have two or three characters.  The bits left over in the last
    character are not checked (the encodings are not Strict). *)
Fixpoint decode_quanta (enc : Encoding) (src : list ascii) : option bytes :=
  match src with
  | [] => Some []
  | c0 :: c1 :: c2 :: c3 :: rest =>
      match dec_char enc c0, dec_char enc c1 with
      | Some s0, Some s1 =>
          match dec_char enc c2, dec_char enc c3 with
          | Some s2, Some s3 =>
              let val := quantum s0 s1 s2 s3 in
              match decode_quanta enc rest with
              | Some out =>
                  Some (byte_of_Z (val / 65536) :: byte_of_Z (val / 256)
                          :: byte_of_Z val :: out)
              | None => None
              end
          | Some s2, None =>
              if decide (Some c3 = padChar enc) then
                match rest with
                | [] =>
                    let val := quantum s0 s1 s2 0 in
                    Some [byte_of_Z (val / 65536); byte_of_Z (val / 256)]
                | _ => None
                end
              else None
          | None, _ =>
              if decide (Some c2 = padChar enc) then
                if decide (Some c3 = padChar enc) then
                  match rest with
                  | [] => Some [byte_of_Z (quantum s0 s1 0 0 / 65536)]
                  | _ => None
                  end
                else None
              else None
          end
      | _, _ => None
      end
  | [c0; c1; c2] =>
      match padChar enc, dec_char enc c0, dec_char enc c1, dec_char enc c2 with
      | None, Some s0, Some s1, Some s2 =>
          let val := quantum s0 s1 s2 0 in
          Some [byte_of_Z (val / 65536); byte_of_Z (val / 256)]
      | _, _, _, _ => None
      end
  | [c0; c1] =>
      match padChar enc, dec_char enc c0, dec_char enc c1 with
      | None, Some s0, Some s1 => Some [byte_of_Z (quantum s0 s1 0 0 / 65536)]
      | _, _, _ => None
      end
  | [_] => None
  end.

(** [enc.DecodeString(s)] *)
Definition DecodeString (enc : Encoding) (s : string) : result bytes :=
  let src := filter (λ c, is_newline c = false) (list_ascii_of_string s) in
  match decode_quanta enc src with
  | Some out => Ok out
  | None => Err CorruptInputError
  end.

End base64.

(** ** crypto/subtle *)

Module subtle.

(** [ConstantTimeByteEq(x, y uint8) int]: [int((uint32(x^y) - 1) >> 31)] *)
Definition ConstantTimeByteEq (x y : Z) : Z :=
  Z.shiftr ((Z.lxor x y - 1) mod 2 ^ 32) 31.

(** The loop [v |= x[i] ^ y[i]] over two slices of one length. *)
Fixpoint fold_xor (v : Z) (x y : bytes) : Z :=
  match x, y with
  | a :: x', b :: y' =>
      fold_xor (Z.lor v (Z.lxor (byte_val a) (byte_val b))) x' y'
  | _, _ => v
  end.

Definition ConstantTimeCompare (x y : bytes) : Z :=
  if decide (length x = length y) then ConstantTimeByteEq (fold_xor 0 x y) 0
  else 0.

End subtle.

(** ** The collaborators behind interfaces

    [cipher.AEAD] is a Go interface; the package never looks inside it.
    [Seal] appends the sealed text to [dst], [Open] appends the plaintext to
    [dst] or reports an error. *)

Class AEAD : Type := {
  NonceSize : nat;
  Overhead : nat;
  Seal : bytes → bytes → bytes → bytes → bytes;          (* dst nonce plaintext aad *)
  Open : bytes → bytes → bytes → bytes → option bytes    (* dst nonce ciphertext aad *)
}.

(** What the package relies on: [Seal] appends, the sealed text is
    [Overhead] bytes longer than the plaintext, and [Open] undoes [Seal]
    under the same nonce and additional data. *)
Class AEADLaws (aead : AEAD) : Prop := {
  Seal_appends : ∀ dst nonce pt aad,
    Seal dst nonce pt aad = dst ++ Seal [] nonce pt aad;
  Seal_length : ∀ nonce pt aad,
    length (Seal [] nonce pt aad) = (length pt + Overhead)%nat;
  Open_Seal : ∀ nonce pt aad,
    length nonce = NonceSize →
    Open [] nonce (Seal [] nonce pt aad) aad = Some pt
}.

(** [hmac.New(sha256.New, key)], [Write(data)], [Sum(nil)] *)
Class HMAC : Type := {
  hmac_sha256 : bytes → bytes → bytes                    (* key data *)
}.

Class HMACLaws (mac : HMAC) : Prop := {
  hmac_sha256_size : ∀ key data, length (hmac_sha256 key data) = 32%nat
}.

(** [json.Marshal(v)] and [json.Unmarshal(data, &dest)] at the type of
    [v] and [dest]; the unmarshaller gets the destination as it is before
    the call and returns it as it is after. *)
Class JSON (V : Type) : Type := {
  json_Marshal : V → result bytes;
  json_Unmarshal : bytes → V → result V
}.

(** ** The world outside the process

    [clock] is what [time.Now()] reads, in nanoseconds since the Unix
    epoch; [entropy] is what [crypto/rand] will deliver, a read for more
    than is left fails; [redis] is the key space of the server, each key
    with its value and the instant at which the server drops it; [net] is
    the fate of the coming round trips to the server, [Some e] a transport
    error, and a round trip past the end of the list succeeds; [response]
    is the list of Set-Cookie headers of the response writer.  [calls]
    records, latest first, the calls made to the cipher and to the server.
    The clock stands still during one call of the package. *)

Inductive command : Type :=
  | GET (key : string)
  | SET (key value : string) (ttl : Z)
  | DEL (key : string).

Inductive call : Type :=
  | CallSeal (nonce plaintext aad : bytes)
  | CallOpen (nonce ciphertext aad : bytes)
  | CallRedis (cmd : command)                 (* one command, one round trip *)
  | CallExec (cmds : list command)            (* MULTI ... EXEC, one round trip *)
  | CallScript (keys : list string) (arg : string) (px : Z).

Record Entry : Type := {
  entry_value : string;
  entry_deadline : option Z                   (* [None]: the key does not expire *)
}.

Record Cookie : Type := {
  Cookie_Name : string;
  Cookie_Value : string;
  Cookie_Path : string;
  Cookie_Domain : string;
  Cookie_MaxAge : Z;
  Cookie_Expires : Z;
  Cookie_Secure : bool;
  Cookie_HttpOnly : bool;
  Cookie_Partitioned : bool;
  Cookie_SameSite : Z
}.

Record World : Type := {
  clock : Z;
  entropy : bytes;
  redis : gmap string Entry;
  net : list (option error);
  response : list Cookie;
  calls : list call
}.

Definition set_entropy (e : bytes) (w : World) : World :=
  {| clock := clock w; entropy := e; redis := redis w; net := net w;
     response := response w; calls := calls w |}.
Definition set_redis (m : gmap string Entry) (w : World) : World :=
  {| clock := clock w; entropy := entropy w; redis := m; net := net w;
     response := response w; calls := calls w |}.
Definition set_net (n : list (option error)) (w : World) : World :=
  {| clock := clock w; entropy := entropy w; redis := redis w; net := n;
     response := response w; calls := calls w |}.
Definition set_response (r : list Cookie) (w : World) : World :=
  {| clock := clock w; entropy := entropy w; redis := redis w; net := net w;
     response := r; calls := calls w |}.
Definition log (c : call) (w : World) : World :=
  {| clock := clock w; entropy := entropy w; redis := redis w; net := net w;
     response := response w; calls := c :: calls w |}.

(** Go code that returns [(T, error)] and acts on a state [S]: the world,
    or the world together with an object the caller holds a pointer to. *)
Definition ST (S A : Type) : Type := S → result A * S.

Definition ret {S A} (a : A) : ST S A := λ w, (Ok a, w).
Definition fail {S A} (e : error) : ST S A := λ w, (Err e, w).
(** [x, err := m; if err != nil { return err }; k x] *)
Definition bind {S A B} (k : A → ST S B) (m : ST S A) : ST S B :=
  λ w, match m w with
       | (Ok a, w') => k a w'
       | (Err e, w') => (Err e, w')
       end.
#[global] Instance ST_ret {S} : MRet (ST S) := @ret S.
#[global] Instance ST_bind {S} : MBind (ST S) := @bind S.

(** [fmt.Errorf(msg ++ ": %w", err)] on the error path of [m] *)
Definition wrap {S A} (msg : string) (m : ST S A) : ST S A :=
  λ w, match m w with
       | (Ok a, w') => (Ok a, w')
       | (Err e, w') => (Err (ErrWrap msg e), w')
       end.
(** [x, err := m] without a return: the caller looks at [err] itself. *)
Definition catch {S A} (m : ST S A) : ST S (result A) :=
  λ w, let '(r, w') := m w in (Ok r, w').
Definition lift {S A} (r : result A) : ST S A := λ w, (r, w).
Definition get {S} : ST S S := λ w, (Ok w, w).
Definition modify {S} (f : S → S) : ST S unit := λ w, (Ok tt, f w).

Abbreviation M := (ST World).

(** *** time *)

Module time.
Definition Nanosecond : Z := 1.
Definition Millisecond : Z := 1000000.
Definition Second : Z := 1000000000.
Definition minDuration : Z := - 2 ^ 63.
Definition maxDuration : Z := 2 ^ 63 - 1.

(** The zero [time.Time], January 1 of year 1, in nanoseconds since the
    Unix epoch. *)
Definition zero : Z := -62135596800 * Second.

(** [time.Unix(sec, nsec)] *)
Definition Unix (sec nsec : Z) : Z := sec * Second + nsec.

Definition Now : M Z := λ w, (Ok (clock w), w).

(** [t.Sub(u)]: a Duration, saturating at the ends of int64. *)
Definition Sub (t u : Z) : Z :=
  Z.max minDuration (Z.min maxDuration (t - u)).

(** [time.Until(t)] is [t.Sub(time.Now())]. *)
Definition Until (t : Z) : M Z := now ← Now; ret (Sub t now).

Definition Add (t d : Z) : Z := t + d.

(** [t.After(u)] *)
Definition After (t u : Z) : bool := u <? t.

(** [d.Milliseconds()] *)
Definition Milliseconds (d : Z) : Z := Z.quot d Millisecond.

(** [int(d.Seconds())] *)
Definition whole_seconds (d : Z) : Z := Z.quot d Second.
End time.

(** [int64(x)]: wrap-around of the 64-bit signed integers. *)
Definition wrap64 (z : Z) : Z := (z + 2 ^ 63) mod 2 ^ 64 - 2 ^ 63.

(** *** crypto/rand *)

Module rand.
(** [io.ReadFull(rand.Reader, buf)] and [rand.Read(buf)] for a buffer of
    [n] bytes. *)
Definition Read (n : nat) : M bytes :=
  λ w, if decide (n ≤ length (entropy w))%nat
       then (Ok (take n (entropy w)), set_entropy (drop n (entropy w)) w)
       else (Err ErrUnexpectedEOF, set_entropy [] w).
End rand.

(** ** session.go *)

(** The dynamic values a handler stores in a session; [None] is the nil
    interface. *)
Inductive value : Type :=
  | VBool (b : bool)
  | VInt (n : Z)
  | VString (s : string).

Abbreviation iface := (option value).

(** [map[string]interface{}]; [None] is the nil map. *)
Module gomap.
Abbreviation t := (option (gmap string iface)).

Definition make : t := Some ∅.

(** [m[k]]: the zero value when [k] is absent or [m] is nil. *)
Definition index (m : t) (k : string) : iface :=
  match m with
  | Some g => default None (g !! k)
  | None => None
  end.

(** [m[k] = v]: panics on a nil map, [None] here. *)
Definition assign (m : t) (k : string) (v : iface) : option t :=
  match m with
  | Some g => Some (Some (<[k := v]> g))
  | None => None
  end.

(** [delete(m, k)]: nothing to do on a nil map. *)
Definition delete (m : t) (k : string) : t :=
  match m with
  | Some g => Some (base.delete k g)
  | None => None
  end.
End gomap.

Record sessionDTO : Type := {
  dto_ID : string;
  dto_Name : string;
  dto_Values : gomap.t;
  dto_CreatedAt : Z;
  dto_UpdatedAt : Z;
  dto_ExpiresAt : Z
}.

Definition sessionDTO_zero : sessionDTO :=
  {| dto_ID := ""; dto_Name := ""; dto_Values := None;
     dto_CreatedAt := time.zero; dto_UpdatedAt := time.zero;
     dto_ExpiresAt := time.zero |}.

(** A method that takes the lock runs alone on its session, so it is a
    function of the session before to the session after; a method that
    panics gives [None].  [now] is what [time.Now()] reads under the
    lock. *)
Module Session.

Record t : Type := {
  id : string;
  name : string;
  values : gomap.t;
  isNew : bool;
  createdAt : Z;
  updatedAt : Z;
  expiresAt : Z
}.

(** [var session Session] *)
Definition zero : t :=
  {| id := ""; name := ""; values := None; isNew := false;
     createdAt := time.zero; updatedAt := time.zero;
     expiresAt := time.zero |}.

Definition NewSession (id : string) (maxAge : Z) : M t :=
  now ← time.Now;
  mret {| id := id; name := ""; values := gomap.make; isNew := true;
          createdAt := now; updatedAt := now;
          expiresAt := time.Add now maxAge |}.

Definition ID (s : t) : string := id s.
Definition Name (s : t) : string := name s.
Definition IsNew (s : t) : bool := isNew s.
Definition CreatedAt (s : t) : Z := createdAt s.
Definition UpdatedAt (s : t) : Z := updatedAt s.
Definition ExpiresAt (s : t) : Z := expiresAt s.

Definition with_values (vs : gomap.t) (upd : Z) (s : t) : t :=
  {| id := id s; name := name s; values := vs; isNew := isNew s;
     createdAt := createdAt s; updatedAt := upd; expiresAt := expiresAt s |}.

(** [Set] is a reserved word, hence the underscore. *)
Definition Set_ (s : t) (key : string) (val : iface) (now : Z) : option t :=
  let vs := match values s with
            | None => gomap.make
            | Some g => Some g
            end in
  match gomap.assign vs key val with
  | Some vs' => Some (with_values vs' now s)
  | None => None
  end.

Definition Get (s : t) (key : string) : option iface :=
  Some (gomap.index (values s) key).

Definition Delete (s : t) (key : string) (now : Z) : option t :=
  Some (with_values (gomap.delete (values s) key) now s).

Definition Refresh (s : t) (maxAge : Z) (now : Z) : t :=
  {| id := id s; name := name s; values := values s; isNew := isNew s;
     createdAt := createdAt s; updatedAt := now;
     expiresAt := time.Add now maxAge |}.

Definition Extend (s : t) (delta : Z) (now : Z) : t :=
  {| id := id s; name := name s; values := values s; isNew := isNew s;
     createdAt := createdAt s; updatedAt := now;
     expiresAt := time.Add (expiresAt s) delta |}.

Definition setName (s : t) (n : string) : t :=
  {| id := id s; name := n; values := values s; isNew := isNew s;
     createdAt := createdAt s; updatedAt := updatedAt s;
     expiresAt := expiresAt s |}.

Definition setIsNew (s : t) (v : bool) : t :=
  {| id := id s; name := name s; values := values s; isNew := v;
     createdAt := createdAt s; updatedAt := updatedAt s;
     expiresAt := expiresAt s |}.

Definition setID (s : t) (i : string) : t :=
  {| id := i; name := name s; values := values s; isNew := isNew s;
     createdAt := createdAt s; updatedAt := updatedAt s;
     expiresAt := expiresAt s |}.

Definition to_dto (s : t) : sessionDTO :=
  {| dto_ID := id s; dto_Name := name s; dto_Values := values s;
     dto_CreatedAt := createdAt s; dto_UpdatedAt := updatedAt s;
     dto_ExpiresAt := expiresAt s |}.

Section json.
Context {dto_json : JSON sessionDTO}.

Definition MarshalJSON (s : t) : result bytes :=
  json_Marshal (to_dto s).

Definition UnmarshalJSON (s : t) (b : bytes) : result t :=
  match json_Unmarshal b sessionDTO_zero with
  | Err err => Err err
  | Ok dto =>
      Ok {| id := dto_ID dto;
            name := dto_Name dto;
            values := match dto_Values dto with
                      | None => gomap.make
                      | Some g => Some g
                      end;
            isNew := false;
            createdAt := dto_CreatedAt dto;
            updatedAt := dto_UpdatedAt dto;
            expiresAt := dto_ExpiresAt dto |}
  end.

(** [*Session] is a [json.Marshaler] and a [json.Unmarshaler]. *)
#[global] Instance Session_JSON : JSON t :=
  {| json_Marshal := MarshalJSON;
     json_Unmarshal := λ b dest, UnmarshalJSON dest b |}.
End json.

End Session.

(** ** cipher.go *)

Record Crypto : Type := {
  aead : AEAD;
  signingKey : option bytes                   (* [None] is the nil slice *)
}.

Definition NewCrypto (aead : AEAD) (signingKey : option bytes) : Crypto :=
  {| aead := aead; signingKey := signingKey |}.

(** The calls through the [cipher.AEAD] interface leave a record. *)
Definition aead_Seal (a : AEAD) (dst nonce plaintext aad : bytes) : M bytes :=
  modify (log (CallSeal nonce plaintext aad));;
  mret (Seal dst nonce plaintext aad).

Definition aead_Open (a : AEAD) (dst nonce ciphertext aad : bytes)
  : M (option bytes) :=
  modify (log (CallOpen nonce ciphertext aad));;
  mret (Open dst nonce ciphertext aad).

Section cipher.
Context {mac : HMAC}.

Definition GenerateSessionID (c : Crypto) : M string :=
  bytes ← wrap "failed to generate session ID" (rand.Read 32);
  mret (base64.EncodeToString base64.RawURLEncoding bytes).

Definition sign (c : Crypto) (data : bytes) : bytes :=
  hmac_sha256 (default [] (signingKey c)) data.

Definition verify (c : Crypto) (data signature : bytes) : bool :=
  subtle.ConstantTimeCompare signature (sign c data) =? 1.

Definition EncryptAndSign {V} {codec : JSON V}
  (c : Crypto) (data : V) (aad : bytes) : M string :=
  jsonData ← wrap "failed to marshal data" (lift (json_Marshal data));
  nonce ← wrap "failed to generate nonce" (rand.Read (@NonceSize (aead c)));
  ciphertext ← aead_Seal (aead c) nonce nonce jsonData aad;
  match signingKey c with
  | Some _ =>
      let signature := sign c ciphertext in
      let combined := signature ++ ciphertext in
      mret (base64.EncodeToString base64.StdEncoding combined)
  | None =>
      mret (base64.EncodeToString base64.StdEncoding ciphertext)
  end.

Definition DecryptAndVerify {V} {codec : JSON V}
  (c : Crypto) (encryptedData : string) (dest : V) (aad : bytes) : M V :=
  decoded ← wrap "failed to decode base64"
              (lift (base64.DecodeString base64.StdEncoding encryptedData));
  let nonceSize := @NonceSize (aead c) in
  let overhead := @Overhead (aead c) in
  decoded ←
    match signingKey c with
    | Some _ =>
        let minLength := (32 + nonceSize + overhead + 1)%nat in
        if decide (length decoded < minLength)%nat then fail ErrInvalidSessionData
        else
          let signature := take 32 decoded in
          let ciphertext := drop 32 decoded in
          if negb (verify c ciphertext signature) then fail ErrSignatureInvalid
          else mret ciphertext
    | None =>
        let minLength := (nonceSize + overhead + 1)%nat in
        if decide (length decoded < minLength)%nat then fail ErrInvalidSessionData
        else mret decoded
    end;
  let nonce := take nonceSize decoded in
  let ciphertext := drop nonceSize decoded in
  opened ← aead_Open (aead c) [] nonce ciphertext aad;
  match opened with
  | None => fail ErrEncryptionFailed
  | Some plaintext =>
      wrap "failed to unmarshal data" (lift (json_Unmarshal plaintext dest))
  end.

End cipher.


(** ** The Redis client

    Every command is one round trip, which the network may fail before the
    server sees it.  The server answers a read of a key whose deadline has
    passed as it answers a read of a key that is not there.  The client
    sends the expiry rounded to the millisecond; the model keeps the
    duration as the package passes it. *)

Module client.

Definition round_trip : M unit :=
  λ w, match net w with
       | [] => (Ok tt, w)
       | None :: n => (Ok tt, set_net n w)
       | Some e :: n => (Err e, set_net n w)
       end.

Definition live (now : Z) (e : Entry) : bool :=
  match entry_deadline e with
  | Some d => now <? d
  | None => true
  end.

(** [KeepTTL] *)
Definition KeepTTL : Z := -1.

(** What a command does to the key space at instant [now]. *)
Definition apply_command (now : Z) (cmd : command) (db : gmap string Entry)
  : gmap string Entry :=
  match cmd with
  | GET _ => db
  | SET key val ttl =>
      let d := if 0 <? ttl then Some (now + ttl)
               else if ttl =? KeepTTL then
                 match db !! key with
                 | Some e => if live now e then entry_deadline e else None
                 | None => None
                 end
               else None in
      <[key := {| entry_value := val; entry_deadline := d |}]> db
  | DEL key => delete key db
  end.

Definition run (cmd : command) : M unit :=
  modify (log (CallRedis cmd));;
  round_trip;;
  modify (λ w, set_redis (apply_command (clock w) cmd (redis w)) w).

(** [client.Get(ctx, key).Result()] *)
Definition Get (key : string) : M string :=
  run (GET key);;
  w ← get;
  match redis w !! key with
  | Some e => if live (clock w) e then mret (entry_value e) else fail RedisNil
  | None => fail RedisNil
  end.

(** [client.Set(ctx, key, value, expiration).Err()], with the underscore
    of [Session.Set_]. *)
Definition Set_ (key val : string) (expiration : Z) : M unit :=
  run (SET key val expiration).

(** [client.Del(ctx, key).Err()] *)
Definition Del (key : string) : M unit :=
  run (DEL key).

(** [pipe := client.TxPipeline(); ...; pipe.Exec(ctx)]: the queued commands
  go out between MULTI and EXEC in one round trip and the server runs
  them as one unit. *)
Definition Exec (cmds : list command) : M unit :=
  modify (log (CallExec cmds));;
  round_trip;;
  modify (λ w, set_redis
                 (fold_left (λ db cmd, apply_command (clock w) cmd db) cmds (redis w))
                 w).

(** [rotateSessionScript.Run(ctx, client, []string{oldKey, newKey},
    encrypted, px)], the script being
    [redis.call('SET', KEYS[2], ARGV[1], 'PX', ARGV[2])],
    [redis.call('DEL', KEYS[1])], [return 1].  The server runs a script as
    one unit; it refuses an expiry that is not positive, and the script
    stops there. *)
Definition rotateSessionScript_Run (oldKey newKey encrypted : string) (px : Z)
  : M unit :=
  modify (log (CallScript [oldKey; newKey] encrypted px));;
  round_trip;;
  if px <=? 0 then fail (ErrReply "ERR invalid expire time in 'set' command")
  else
    modify (λ w, set_redis
                   (fold_left (λ db cmd, apply_command (clock w) cmd db)
                      [SET newKey encrypted (px * time.Millisecond); DEL oldKey]
                      (redis w))
                   w).

End client.

(** ** net/http *)

Record Request : Type := {
  request_cookies : list (string * string)    (* name and value, in header order *)
}.

(** [r.Cookie(name)] *)
Definition Request_Cookie (r : Request) (name : string) : result string :=
  if decide (name = "") then Err ErrNoCookie
  else match List.find (λ c, bool_decide (c.1 = name)) (request_cookies r) with
       | Some c => Ok c.2
       | None => Err ErrNoCookie
       end.

(** [http.SetCookie(w, cookie)] *)
Definition http_SetCookie (cookie : Cookie) : M unit :=
  modify (λ w, set_response (response w ++ [cookie]) w).

(** ** The cookie options *)

Record CookieOptions : Type := {
  Path : string;
  Domain : string;
  MaxAge : Z;                                 (* seconds *)
  Secure : bool;
  HttpOnly : bool;
  Partitioned : bool;
  SameSite : Z
}.

Definition SameSiteDefaultMode : Z := 1.
Definition SameSiteLaxMode : Z := 2.
Definition SameSiteStrictMode : Z := 3.

Definition NewCookie (options : CookieOptions) (session : Session.t) : M Cookie :=
  ttl ← time.Until (Session.ExpiresAt session);
  mret {| Cookie_Name := Session.Name session;
          Cookie_Value := Session.ID session;
          Cookie_Path := Path options;
          Cookie_Domain := Domain options;
          Cookie_MaxAge := time.whole_seconds ttl;
          Cookie_Expires := Session.ExpiresAt session;
          Cookie_Secure := Secure options;
          Cookie_HttpOnly := HttpOnly options;
          Cookie_Partitioned := Partitioned options;
          Cookie_SameSite := SameSite options |}.

Definition RemoveCookie (options : CookieOptions) (name : string) : Cookie :=
  {| Cookie_Name := name;
     Cookie_Value := "";
     Cookie_Path := Path options;
     Cookie_Domain := Domain options;
     Cookie_MaxAge := -1;
     Cookie_Expires := time.Unix 0 0;
     Cookie_Secure := Secure options;
     Cookie_HttpOnly := HttpOnly options;
     Cookie_Partitioned := Partitioned options;
     Cookie_SameSite := SameSite options |}.

Definition DefaultCookieOptions : CookieOptions :=
  {| Path := "/"; Domain := ""; MaxAge := 86400 * 30; Secure := true;
     HttpOnly := true; Partitioned := false; SameSite := SameSiteStrictMode |}.

(** ** The store *)

Record RedisStore : Type := {
  prefix : string;
  crypto : Crypto;
  options : CookieOptions
}.

Definition NewRedisStore (keyPrefix : string) (crypto : Crypto)
  (options : CookieOptions) : RedisStore :=
  {| prefix := keyPrefix; crypto := crypto; options := options |}.

Definition redisKey (s : RedisStore) (name sessionID : string) : string :=
  prefix s +:+ name +:+ ":" +:+ sessionID.

(** A method that writes through its [*Session] argument acts on the
    session and on the world. *)
Definition in_world {A} (m : M A) : ST (Session.t * World) A :=
  λ '(session, w), let '(r, w') := m w in (r, (session, w')).
Definition the_session : ST (Session.t * World) Session.t :=
  λ '(session, w), (Ok session, (session, w)).
Definition on_session (f : Session.t → Session.t) : ST (Session.t * World) unit :=
  λ '(session, w), (Ok tt, (f session, w)).

Section store.
Context {mac : HMAC} {dto_json : JSON sessionDTO}.

Definition load (s : RedisStore) (name sessionID : string) : M Session.t :=
  let key := redisKey s name sessionID in
  fetched ← catch (client.Get key);
  match fetched with
  | Err err =>
      if errors_Is err RedisNil then fail ErrSessionNotFound else fail err
  | Ok encrypted =>
      session ← DecryptAndVerify (crypto s) encrypted Session.zero
                  (bytes_of_string name);
      now ← time.Now;
      if time.After now (Session.ExpiresAt session) then
        catch (client.Del key);;
        fail ErrSessionExpired
      else mret session
  end.

Definition New (s : RedisStore) (r : Request) (name : string) : M Session.t :=
  session ←
    match Request_Cookie r name with
    | Ok cookie =>
        loaded ← catch (load s name cookie);
        match loaded with
        | Ok session => mret (Some (Session.setIsNew session false))
        | Err _ => mret None
        end
    | Err _ => mret None
    end;
  session ←
    match session with
    | Some session => mret session
    | None =>
        id ← GenerateSessionID (crypto s);
        session ← Session.NewSession id (wrap64 (MaxAge (options s) * time.Second));
        mret (Session.setIsNew session true)
    end;
  mret (Session.setName session name).

Definition Get (s : RedisStore) (r : Request) (name : string) : M Session.t :=
  New s r name.

Definition Save (s : RedisStore) (r : Request) (session : Session.t) : M unit :=
  let key := redisKey s (Session.Name session) (Session.ID session) in
  ttl ← time.Until (Session.ExpiresAt session);
  if ttl <=? 0 then fail ErrSessionExpired
  else
    encrypted ← EncryptAndSign (crypto s) session
                  (bytes_of_string (Session.Name session));
    client.Set_ key encrypted ttl;;
    cookie ← NewCookie (options s) session;
    http_SetCookie cookie.

Definition RotateID (s : RedisStore) (r : Request) : ST (Session.t * World) unit :=
  session ← the_session;
  let oldID := Session.ID session in
  let oldKey := redisKey s (Session.Name session) oldID in
  newID ← in_world (GenerateSessionID (crypto s));
  on_session (λ session, Session.setID session newID);;
  session ← the_session;
  let newKey := redisKey s (Session.Name session) newID in
  ttl ← in_world (time.Until (Session.ExpiresAt session));
  let ttl := if ttl <=? 0 then time.Second else ttl in
  encrypted ← in_world (EncryptAndSign (crypto s) session
                          (bytes_of_string (Session.Name session)));
  in_world (client.Exec [SET newKey encrypted ttl; DEL oldKey]);;
  in_world (cookie ← NewCookie (options s) session; http_SetCookie cookie).

(** The other variant of [RotateID] in the repository, which differs in
    the remote operation: a server-side script in the place of the
    transaction. *)
Definition RotateID_script (s : RedisStore) (r : Request)
  : ST (Session.t * World) unit :=
  session ← the_session;
  let oldID := Session.ID session in
  let oldKey := redisKey s (Session.Name session) oldID in
  newID ← in_world (GenerateSessionID (crypto s));
  on_session (λ session, Session.setID session newID);;
  session ← the_session;
  let newKey := redisKey s (Session.Name session) newID in
  ttl ← in_world (time.Until (Session.ExpiresAt session));
  let ttl := if ttl <=? 0 then time.Second else ttl in
  encrypted ← in_world (EncryptAndSign (crypto s) session
                          (bytes_of_string (Session.Name session)));
  in_world (client.rotateSessionScript_Run oldKey newKey encrypted
              (time.Milliseconds ttl));;
  in_world (cookie ← NewCookie (options s) session; http_SetCookie cookie).

Definition Destroy (s : RedisStore) (r : Request) (session : Session.t) : M unit :=
  let key := redisKey s (Session.Name session) (Session.ID session) in
  client.Del key;;
  http_SetCookie (RemoveCookie (options s) (Session.Name session)).

End store.

(** ** Reference collaborators

    Small executable instances of the three interfaces, on which the
    statements below are run: a cipher that shifts every byte by a value
    drawn from the key and the nonce and appends a sixteen-byte checksum of
    key, nonce, additional data and ciphertext; a thirty-two-byte keyed
    checksum in the place of HMAC-SHA256; a length-prefixed encoding of the
    session record in the place of its JSON text. *)

Module Reference.

Definition put_int (width : nat) (z : Z) : bytes :=
  map (λ i, byte_of_Z (z / 256 ^ Z.of_nat (width - 1 - i))) (seq 0 width).

Definition get_int (b : bytes) : Z :=
  fold_left (λ acc x, acc * 256 + byte_val x) b 0.

Definition digest (width : nat) (data : bytes) : bytes :=
  put_int width
    (fold_left (λ acc b, (acc * 257 + byte_val b + 1) mod 256 ^ Z.of_nat width)
       data 7).

Definition shift_of (key nonce : bytes) : Z :=
  fold_left (λ acc b, (acc + byte_val b) mod 256) (key ++ nonce) 0.

Definition tag (key nonce aad ct : bytes) : bytes :=
  digest 16 (key ++ nonce ++ put_int 8 (Z.of_nat (length aad)) ++ aad ++ ct).

Definition cipher (key : bytes) : AEAD :=
  {| NonceSize := 12;
     Overhead := 16;
     Seal := λ dst nonce pt aad,
       let k := shift_of key nonce in
       let ct := map (λ b, byte_of_Z (byte_val b + k)) pt in
       dst ++ ct ++ tag key nonce aad ct;
     Open := λ dst nonce c aad,
       if decide (length c < 16)%nat then None
       else
         let ct := take (length c - 16) c in
         let t := drop (length c - 16) c in
         if decide (t = tag key nonce aad ct) then
           let k := shift_of key nonce in
           Some (dst ++ map (λ b, byte_of_Z (byte_val b - k)) ct)
         else None |}.

Definition keyed_checksum : HMAC :=
  {| hmac_sha256 := λ key data,
       digest 32 (put_int 8 (Z.of_nat (length key)) ++ key ++ data) |}.

(** The encoding of the session record. *)
Definition parser (A : Type) : Type := bytes → option (A * bytes).

Definition put_time (z : Z) : bytes := put_int 8 (z mod 2 ^ 64).
Definition get_time : parser Z :=
  λ b, if decide (length b < 8)%nat then None
       else Some (wrap64 (get_int (take 8 b)), drop 8 b).

Definition put_string (s : string) : bytes :=
  put_int 8 (Z.of_nat (String.length s)) ++ bytes_of_string s.
Definition get_string : parser string :=
  λ b, if decide (length b < 8)%nat then None
       else
         let n := Z.to_nat (get_int (take 8 b)) in
         let rest := drop 8 b in
         if decide (length rest < n)%nat then None
         else Some (string_of_bytes (take n rest), drop n rest).

Definition put_iface (v : iface) : bytes :=
  match v with
  | None => [x00]
  | Some (VBool false) => [x01; x00]
  | Some (VBool true) => [x01; x01]
  | Some (VInt n) => x02 :: put_time n
  | Some (VString s) => x03 :: put_string s
  end.
Definition get_iface : parser iface :=
  λ b, match b with
       | x00 :: rest => Some (None, rest)
       | x01 :: x00 :: rest => Some (Some (VBool false), rest)
       | x01 :: x01 :: rest => Some (Some (VBool true), rest)
       | x02 :: rest =>
           match get_time rest with
           | Some (n, rest') => Some (Some (VInt n), rest')
           | None => None
           end
       | x03 :: rest =>
           match get_string rest with
           | Some (s, rest') => Some (Some (VString s), rest')
           | None => None
           end
       | _ => None
       end.

Definition put_values (m : gomap.t) : bytes :=
  match m with
  | None => [x00]
  | Some g =>
      x01 :: put_int 8 (Z.of_nat (size g))
          ++ concat (map (λ kv, put_string kv.1 ++ put_iface kv.2) (map_to_list g))
  end.

Fixpoint get_entries (n : nat) : parser (gmap string iface) :=
  match n with
  | O => λ b, Some (∅, b)
  | S n' =>
      λ b, match get_string b with
           | Some (k, b1) =>
               match get_iface b1 with
               | Some (v, b2) =>
                   match get_entries n' b2 with
                   | Some (g, b3) => Some (<[k := v]> g, b3)
                   | None => None
                   end
               | None => None
               end
           | None => None
           end
  end.

Definition get_values : parser gomap.t :=
  λ b, match b with
       | x00 :: rest => Some (None, rest)
       | x01 :: rest =>
           if decide (length rest < 8)%nat then None
           else
             match get_entries (Z.to_nat (get_int (take 8 rest))) (drop 8 rest) with
             | Some (g, rest') => Some (Some g, rest')
             | None => None
             end
       | _ => None
       end.

Definition marshal (d : sessionDTO) : result bytes :=
  Ok (put_string (dto_ID d) ++ put_string (dto_Name d) ++ put_values (dto_Values d)
        ++ put_time (dto_CreatedAt d) ++ put_time (dto_UpdatedAt d)
        ++ put_time (dto_ExpiresAt d)).

Definition unmarshal (b : bytes) (dest : sessionDTO) : result sessionDTO :=
  match get_string b with
  | Some (i, b1) =>
    match get_string b1 with
    | Some (n, b2) =>
      match get_values b2 with
      | Some (vs, b3) =>
        match get_time b3 with
        | Some (c, b4) =>
          match get_time b4 with
          | Some (u, b5) =>
            match get_time b5 with
            | Some (e, []) =>
                Ok {| dto_ID := i; dto_Name := n; dto_Values := vs;
                      dto_CreatedAt := c; dto_UpdatedAt := u; dto_ExpiresAt := e |}
            | _ => Err (ErrJSON "invalid character after top-level value")
            end
          | None => Err (ErrJSON "unexpected end of JSON input")
          end
        | None => Err (ErrJSON "unexpected end of JSON input")
        end
      | None => Err (ErrJSON "unexpected end of JSON input")
      end
    | None => Err (ErrJSON "unexpected end of JSON input")
    end
  | None => Err (ErrJSON "unexpected end of JSON input")
  end.

Definition record_encoding : JSON sessionDTO :=
  {| json_Marshal := marshal; json_Unmarshal := unmarshal |}.

(** A store, a clock and a session to run the package on. *)
Definition encKey : bytes := bytes_of_string "0123456789abcdef0123456789abcdef".
Definition signKey : bytes := bytes_of_string "fedcba9876543210fedcba9876543210".

Definition signing : Crypto := NewCrypto (cipher encKey) (Some signKey).
Definition unsigned : Crypto := NewCrypto (cipher encKey) None.

Definition cookieOptions : CookieOptions :=
  {| Path := "/"; Domain := ""; MaxAge := 10; Secure := false;
     HttpOnly := true; Partitioned := false; SameSite := SameSiteDefaultMode |}.

Definition store : RedisStore := NewRedisStore "test:" signing cookieOptions.

Definition noon : Z := time.Unix 1700000000 0.

Definition dice : bytes :=
  map (λ i, byte_of_Z (Z.of_nat i * 37 + 11)) (seq 0 128).

Definition world : World :=
  {| clock := noon; entropy := dice; redis := ∅; net := [];
     response := []; calls := [] |}.

Definition alice : Session.t :=
  {| Session.id := "c2Vzc2lvbi1vbmU";
     Session.name := "session-name";
     Session.values := Some {[ "user" := Some (VString "alice") ]};
     Session.isNew := false;
     Session.createdAt := noon - 5 * time.Second;
     Session.updatedAt := noon - time.Second;
     Session.expiresAt := noon + 3600 * time.Second |}.

(** A request that brings the cookie of [alice]. *)
Definition request : Request :=
  {| request_cookies := [("session-name", "c2Vzc2lvbi1vbmU")] |}.

(** The server cannot be reached. *)
Definition down : World :=
  set_net [Some (ErrNetwork "connection refused")] world.

(** The entropy source delivers nothing. *)
Definition dry : World := set_entropy [] world.

(** The entropy source delivers an identifier and then nothing. *)
Definition drying : World := set_entropy (take 40 dice) world.

(** Two hours later: [alice] has expired an hour ago. *)
Definition late : World :=
  {| clock := noon + 7200 * time.Second; entropy := dice; redis := ∅;
     net := []; response := []; calls := [] |}.


(** Sixty-three zero bytes in base64. *)
Definition blank : string :=
  "AAAAAAAAAAAAAAAAAAAAAAAAAAAAAAAAAAAAAAAAAAAAAAAAAAAAAAAAAAAAAAAAAAAAAAAAAAAAAAAAAAAA".

End Reference.

(** ** Vocabulary of the statements *)

(** Every character of the alphabet decodes to its index and is no line break. *)
Definition alphabet_ok (enc : base64.Encoding) : bool :=
  forallb (λ n, bool_decide (base64.dec_char enc (base64.enc_char enc (Z.of_nat n))
                             = Some (Z.of_nat n))
                && negb (base64.is_newline (base64.enc_char enc (Z.of_nat n))))
          (seq 0 64).

(** A non-negative integer with nothing above its low eight bits. *)
Definition is_byte (a : Z) : Prop := 0 ≤ a ∧ Z.shiftr a 8 = 0.

(** The bytes [EncryptAndSign] encodes: signature (with a signing key),
    nonce, sealed text. *)
Definition sealed_bytes {mac : HMAC} (c : Crypto) (nonce plaintext aad : bytes) : bytes :=
  let ciphertext := @Seal (aead c) nonce nonce plaintext aad in
  match signingKey c with
  | Some _ => sign c ciphertext ++ ciphertext
  | None => ciphertext
  end.

(** The text [EncryptAndSign] returns for a given nonce and plaintext. *)
Definition envelope {mac : HMAC} (c : Crypto) (nonce plaintext aad : bytes) : string :=
  base64.EncodeToString base64.StdEncoding (sealed_bytes c nonce plaintext aad).

(** The least number of bytes [DecryptAndVerify] accepts. *)
Definition minLength (c : Crypto) : nat :=
  match signingKey c with
  | Some _ => 32 + @NonceSize (aead c) + @Overhead (aead c) + 1
  | None => @NonceSize (aead c) + @Overhead (aead c) + 1
  end.

(** What is kept of a session that is written and read back: every field
    of the record that is marshalled, a map of values allocated, and
    [isNew] false. *)
Definition persisted (s : Session.t) : Session.t :=
  {| Session.id := Session.id s;
     Session.name := Session.name s;
     Session.values := match Session.values s with
                       | None => gomap.make
                       | Some g => Some g
                       end;
     Session.isNew := false;
     Session.createdAt := Session.createdAt s;
     Session.updatedAt := Session.updatedAt s;
     Session.expiresAt := Session.expiresAt s |}.

(** Every byte, and every list of bytes of a given length. *)
Definition all_bytes : bytes := map (λ n, byte_of_Z (Z.of_nat n)) (seq 0 256).
Fixpoint all_lists (n : nat) : list bytes :=
  match n with
  | O => [[]]
  | S n' => b ← all_bytes; l ← all_lists n'; [b :: l]
  end.

(** The coming [n] round trips succeed. *)
Definition up (n : nat) (w : World) : bool :=
  forallb (λ o, bool_decide (o = None)) (take n (net w)).

(** The session [New] makes when there is none to load. *)
Definition fresh_session (s : RedisStore) (name : string) (w : World) : Session.t :=
  {| Session.id := base64.EncodeToString base64.RawURLEncoding (take 32 (entropy w));
     Session.name := name;
     Session.values := Some ∅;
     Session.isNew := true;
     Session.createdAt := clock w;
     Session.updatedAt := clock w;
     Session.expiresAt := clock w + wrap64 (MaxAge (options s) * time.Second) |}.

(** The characters an identifier may hold: letters, digits, [-] and [_]. *)
Definition url_safe (c : ascii) : bool :=
  let n := nat_of_ascii c in
  ((65 <=? n)%nat && (n <=? 90)%nat) || ((97 <=? n)%nat && (n <=? 122)%nat)
  || ((48 <=? n)%nat && (n <=? 57)%nat) || (n =? 45)%nat || (n =? 95)%nat.

(** Every character of the alphabet is such a character. *)
Definition alphabet_url_safe (enc : base64.Encoding) : bool :=
  forallb (λ n, url_safe (base64.enc_char enc (Z.of_nat n))) (seq 0 64).

(** The string holds the character. *)
Fixpoint has_char (c : ascii) (s : string) : bool :=
  match s with
  | EmptyString => false
  | String c' s' => if decide (c = c') then true else has_char c s'
  end.

(** [Set] as the earlier session of the repository has it: the assignment
    without the allocation. *)
Definition Set_v1 (s : Session.t) (key : string) (val : iface) (now : Z)
  : option Session.t :=
  match gomap.assign (Session.values s) key val with
  | Some vs' => Some (Session.with_values vs' now s)
  | None => None
  end.

(** Every entry of the key space has an expiry. *)
Definition expiring (db : gmap string Entry) : Prop :=
  ∀ k e, db !! k = Some e → is_Some (entry_deadline e).

(** The world [d] nanoseconds later, nothing else having happened. *)
Definition later (d : Z) (w : World) : World :=
  {| clock := clock w + d; entropy := entropy w; redis := redis w; net := net w;
     response := response w; calls := calls w |}.

(** The time to live [RotateID] writes with, for what is left of the
    session. *)
Definition rotation_ttl (remaining : Z) : Z :=
  if remaining <=? 0 then time.Second else remaining.

(** * Properties *)

(** ** Bytes *)

Lemma byte_val_range (b : byte) : 0 ≤ byte_val b < 256.
Proof.
  unfold byte_val. pose proof (Byte.to_N_bounded b) as H.
  lia.
Qed.

Lemma byte_of_Z_val (b : byte) (z : Z) :
  z mod 256 = byte_val b → byte_of_Z z = b.
Proof.
  intros H. unfold byte_of_Z. rewrite H. unfold byte_val.
  rewrite N2Z.id, Byte.of_to_N. reflexivity.
Qed.

Lemma byte_val_of_Z (z : Z) : byte_val (byte_of_Z z) = z mod 256.
Proof.
  unfold byte_of_Z, byte_val.
  assert (Hr : 0 ≤ z mod 256 < 256) by (apply Z.mod_pos_bound; lia).
  pose proof (Byte.to_of_N_option_map (Z.to_N (z mod 256))) as H.
  destruct (N.leb_spec (Z.to_N (z mod 256)) 255) as [_|Hgt]; [|lia].
  destruct (Byte.of_N (Z.to_N (z mod 256))) as [b|]; simpl in H; [|discriminate].
  injection H as H. simpl. rewrite H. lia.
Qed.

Lemma byte_of_Z_byte_val (b : byte) : byte_of_Z (byte_val b) = b.
Proof.
  apply byte_of_Z_val. apply Z.mod_small, byte_val_range.
Qed.

(** ** base64: decoding undoes encoding *)

Lemma list_ind3 {A} (P : list A → Prop) :
  P [] → (∀ a, P [a]) → (∀ a b, P [a; b]) →
  (∀ a b c l, P l → P (a :: b :: c :: l)) →
  ∀ l, P l.
Proof.
  intros H0 H1 H2 H3 l.
  assert (H : P l ∧ (∀ a, P (a :: l)) ∧ (∀ a b, P (a :: b :: l))).
  { induction l as [|x l (IH0 & IH1 & IH2)]; [auto|].
    repeat split; auto. }
  apply H.
Qed.

Lemma alphabet_ok_spec enc i :
  alphabet_ok enc = true → 0 ≤ i < 64 →
  base64.dec_char enc (base64.enc_char enc i) = Some i
  ∧ base64.is_newline (base64.enc_char enc i) = false.
Proof.
  intros Hok Hi. unfold alphabet_ok in Hok.
  rewrite forallb_forall in Hok.
  specialize (Hok (Z.to_nat i)).
  rewrite Z2Nat.id in Hok by lia.
  assert (Hin : In (Z.to_nat i) (seq 0 64)) by (apply in_seq; lia).
  apply Hok in Hin. apply andb_prop in Hin as [H1 H2].
  apply bool_decide_eq_true in H1. apply negb_true_iff in H2. auto.
Qed.

Lemma StdEncoding_alphabet : alphabet_ok base64.StdEncoding = true.
Proof. vm_compute. reflexivity. Qed.

Lemma sextet_range v k : 0 ≤ base64.sextet v k < 64.
Proof. unfold base64.sextet. apply Z.mod_pos_bound. lia. Qed.

Lemma quantum_sextets v :
  0 ≤ v < 16777216 →
  base64.quantum (base64.sextet v 18) (base64.sextet v 12)
                 (base64.sextet v 6) (base64.sextet v 0) = v.
Proof.
  intros Hv. unfold base64.quantum, base64.sextet.
  change (2 ^ 18) with 262144. change (2 ^ 12) with 4096.
  change (2 ^ 6) with 64. change (2 ^ 0) with 1.
  rewrite Z.div_1_r.
  Z.div_mod_to_equations. lia.
Qed.

Lemma quantum_bytes (b0 b1 b2 : byte) :
  let v := byte_val b0 * 65536 + byte_val b1 * 256 + byte_val b2 in
  0 ≤ v < 16777216
  ∧ byte_of_Z (v / 65536) = b0
  ∧ byte_of_Z (v / 256) = b1
  ∧ byte_of_Z v = b2.
Proof.
  intros v. subst v.
  pose proof (byte_val_range b0). pose proof (byte_val_range b1).
  pose proof (byte_val_range b2).
  repeat split; try lia; apply byte_of_Z_val;
    Z.div_mod_to_equations; lia.
Qed.

Lemma decode_quanta_full enc c0 c1 c2 c3 rest s0 s1 s2 s3 :
  base64.dec_char enc c0 = Some s0 → base64.dec_char enc c1 = Some s1 →
  base64.dec_char enc c2 = Some s2 → base64.dec_char enc c3 = Some s3 →
  base64.decode_quanta enc (c0 :: c1 :: c2 :: c3 :: rest) =
  match base64.decode_quanta enc rest with
  | Some out =>
      let val := base64.quantum s0 s1 s2 s3 in
      Some (byte_of_Z (val / 65536) :: byte_of_Z (val / 256) :: byte_of_Z val :: out)
  | None => None
  end.
Proof.
  intros H0 H1 H2 H3. cbn [base64.decode_quanta].
  rewrite H0, H1, H2, H3. reflexivity.
Qed.

Lemma Std_decode_encode (src : bytes) :
  base64.decode_quanta base64.StdEncoding (base64.Encode base64.StdEncoding src)
  = Some src.
Proof.
  pose proof (λ i, alphabet_ok_spec _ i StdEncoding_alphabet) as Hab.
  induction src as [|b0|b0 b1|b0 b1 b2 rest IH] using list_ind3.
  - reflexivity.
  - cbn [base64.Encode base64.pad base64.padChar base64.StdEncoding repeat app].
    set (v := byte_val b0 * 65536).
    pose proof (byte_val_range b0).
    destruct (Hab (base64.sextet v 18) (sextet_range _ _)) as [E0 _].
    destruct (Hab (base64.sextet v 12) (sextet_range _ _)) as [E1 _].
    cbn [base64.decode_quanta]. rewrite E0, E1.
    change (base64.dec_char base64.StdEncoding "=") with (@None Z).
    cbn. f_equal. f_equal. apply byte_of_Z_val.
    unfold base64.quantum, base64.sextet, v.
    change (2 ^ 18) with 262144. change (2 ^ 12) with 4096.
    Z.div_mod_to_equations. lia.
  - cbn [base64.Encode base64.pad base64.padChar base64.StdEncoding repeat app].
    set (v := byte_val b0 * 65536 + byte_val b1 * 256).
    pose proof (byte_val_range b0). pose proof (byte_val_range b1).
    destruct (Hab (base64.sextet v 18) (sextet_range _ _)) as [E0 _].
    destruct (Hab (base64.sextet v 12) (sextet_range _ _)) as [E1 _].
    destruct (Hab (base64.sextet v 6) (sextet_range _ _)) as [E2 _].
    cbn [base64.decode_quanta]. rewrite E0, E1, E2.
    change (base64.dec_char base64.StdEncoding "=") with (@None Z).
    cbn. f_equal.
    assert (Hq : base64.quantum (base64.sextet v 18) (base64.sextet v 12)
                   (base64.sextet v 6) 0 = v).
    { unfold base64.quantum, base64.sextet, v.
      change (2 ^ 18) with 262144. change (2 ^ 12) with 4096.
      change (2 ^ 6) with 64. Z.div_mod_to_equations. lia. }
    rewrite Hq. f_equal; [|f_equal]; apply byte_of_Z_val; unfold v;
      Z.div_mod_to_equations; lia.
  - cbn [base64.Encode].
    set (v := byte_val b0 * 65536 + byte_val b1 * 256 + byte_val b2).
    destruct (quantum_bytes b0 b1 b2) as (Hv & B0 & B1 & B2). fold v in Hv, B0, B1, B2.
    destruct (Hab (base64.sextet v 18) (sextet_range _ _)) as [E0 _].
    destruct (Hab (base64.sextet v 12) (sextet_range _ _)) as [E1 _].
    destruct (Hab (base64.sextet v 6) (sextet_range _ _)) as [E2 _].
    destruct (Hab (base64.sextet v 0) (sextet_range _ _)) as [E3 _].
    rewrite (decode_quanta_full _ _ _ _ _ _ _ _ _ _ E0 E1 E2 E3), IH.
    cbv zeta. rewrite quantum_sextets by exact Hv.
    rewrite B0, B1, B2. reflexivity.
Qed.

Lemma Std_Encode_no_newline (src : bytes) :
  Forall (λ c, base64.is_newline c = false)
         (base64.Encode base64.StdEncoding src).
Proof.
  pose proof (λ i, alphabet_ok_spec _ i StdEncoding_alphabet) as Hab.
  induction src as [|b0|b0 b1|b0 b1 b2 rest IH] using list_ind3;
    cbn [base64.Encode base64.pad base64.padChar base64.StdEncoding repeat app];
    repeat (apply Forall_cons; split);
    try apply Forall_nil; try exact IH;
    try (apply Hab, sextet_range); reflexivity.
Qed.

(** [StdEncoding.DecodeString(StdEncoding.EncodeToString(src))] is [src]. *)
Lemma DecodeString_EncodeToString (src : bytes) :
  base64.DecodeString base64.StdEncoding
    (base64.EncodeToString base64.StdEncoding src) = Ok src.
Proof.
  unfold base64.DecodeString, base64.EncodeToString.
  rewrite list_ascii_of_string_of_list_ascii.
  assert (Hf : filter (λ c, base64.is_newline c = false)
                 (base64.Encode base64.StdEncoding src)
               = base64.Encode base64.StdEncoding src).
  { pose proof (Std_Encode_no_newline src) as H.
    induction H as [|c l Hc Hl IH]; [reflexivity|].
    rewrite filter_cons_True by exact Hc. now rewrite IH. }
  rewrite Hf, Std_decode_encode. reflexivity.
Qed.

(** ** subtle: the comparison is equality *)

Lemma is_byte_range a : is_byte a ↔ 0 ≤ a < 256.
Proof.
  unfold is_byte. rewrite Z.shiftr_div_pow2 by lia. change (2 ^ 8) with 256.
  split; intros [H1 H2]; split; try lia; Z.div_mod_to_equations; lia.
Qed.

Lemma is_byte_lor a b : is_byte a → is_byte b → is_byte (Z.lor a b).
Proof.
  intros [Ha Ha'] [Hb Hb']. split.
  - apply Z.lor_nonneg. auto.
  - rewrite Z.shiftr_lor, Ha', Hb'. reflexivity.
Qed.

Lemma is_byte_lxor a b : is_byte a → is_byte b → is_byte (Z.lxor a b).
Proof.
  intros [Ha Ha'] [Hb Hb']. split.
  - apply Z.lxor_nonneg. tauto.
  - rewrite Z.shiftr_lxor, Ha', Hb'. reflexivity.
Qed.

Lemma is_byte_val (b : byte) : is_byte (byte_val b).
Proof. apply is_byte_range, byte_val_range. Qed.

Lemma byte_val_inj (a b : byte) : byte_val a = byte_val b → a = b.
Proof.
  intros H. rewrite <- (byte_of_Z_byte_val a), <- (byte_of_Z_byte_val b).
  now rewrite H.
Qed.

Lemma fold_xor_is_byte (x y : bytes) v :
  is_byte v → is_byte (subtle.fold_xor v x y).
Proof.
  revert y v. induction x as [|a x IH]; intros [|b y] v Hv; simpl; auto.
  apply IH, is_byte_lor; auto using is_byte_lxor, is_byte_val.
Qed.

Lemma fold_xor_zero (x y : bytes) v :
  is_byte v → length x = length y →
  subtle.fold_xor v x y = 0 ↔ v = 0 ∧ x = y.
Proof.
  revert y v. induction x as [|a x IH]; intros [|b y] v Hv Hlen;
    simpl in *; try discriminate.
  - tauto.
  - rewrite IH; [|auto using is_byte_lor, is_byte_lxor, is_byte_val|congruence].
    rewrite Z.lor_eq_0_iff, Z.lxor_eq_0_iff. split.
    + intros [[-> Hab] ->]. apply byte_val_inj in Hab. now subst.
    + intros [-> [= -> ->]]. auto.
Qed.

Lemma ConstantTimeByteEq_zero v :
  is_byte v → subtle.ConstantTimeByteEq v 0 = if decide (v = 0) then 1 else 0.
Proof.
  intros Hv. apply is_byte_range in Hv. unfold subtle.ConstantTimeByteEq.
  rewrite Z.lxor_0_r, Z.shiftr_div_pow2 by lia.
  change (2 ^ 32) with 4294967296. change (2 ^ 31) with 2147483648.
  destruct (decide (v = 0)) as [->|Hne].
  - reflexivity.
  - rewrite Z.mod_small by lia. apply Z.div_small. lia.
Qed.

Lemma ConstantTimeCompare_spec (x y : bytes) :
  subtle.ConstantTimeCompare x y = if decide (x = y) then 1 else 0.
Proof.
  unfold subtle.ConstantTimeCompare.
  destruct (decide (length x = length y)) as [Hlen|Hlen].
  - assert (H0 : is_byte 0) by (apply is_byte_range; lia).
    rewrite ConstantTimeByteEq_zero by (apply fold_xor_is_byte, H0).
    pose proof (fold_xor_zero x y 0 H0 Hlen) as Hz.
    destruct (decide (subtle.fold_xor 0 x y = 0)), (decide (x = y)); tauto.
  - destruct (decide (x = y)) as [->|]; [contradiction|reflexivity].
Qed.

(** ** The envelope *)

Ltac run :=
  unfold mbind, mret, ST_bind, ST_ret, bind, ret, fail, wrap, lift, catch,
    modify, get; cbn beta iota.

Section envelope_facts.
Context {mac : HMAC} {V : Type} {codec : JSON V}.

Lemma EncryptAndSign_run (c : Crypto) (v : V) (aad : bytes) (w : World) js :
  json_Marshal v = Ok js →
  (@NonceSize (aead c) ≤ length (entropy w))%nat →
  let nonce := take (@NonceSize (aead c)) (entropy w) in
  EncryptAndSign c v aad w =
    (Ok (envelope c nonce js aad),
     log (CallSeal nonce js aad)
         (set_entropy (drop (@NonceSize (aead c)) (entropy w)) w)).
Proof.
  intros Hjs Hent nonce. unfold EncryptAndSign, aead_Seal, rand.Read. run.
  rewrite Hjs. destruct (decide _) as [_|]; [|contradiction].
  unfold envelope, sealed_bytes. fold nonce.
  destruct (signingKey c); reflexivity.
Qed.

Lemma EncryptAndSign_marshal_error (c : Crypto) (v : V) (aad : bytes) (w : World) e :
  json_Marshal v = Err e →
  EncryptAndSign c v aad w = (Err (ErrWrap "failed to marshal data" e), w).
Proof. intros H. unfold EncryptAndSign. run. now rewrite H. Qed.

Lemma EncryptAndSign_nonce_error (c : Crypto) (v : V) (aad : bytes) (w : World) js :
  json_Marshal v = Ok js →
  (length (entropy w) < @NonceSize (aead c))%nat →
  EncryptAndSign c v aad w =
    (Err (ErrWrap "failed to generate nonce" ErrUnexpectedEOF), set_entropy [] w).
Proof.
  intros Hjs Hent. unfold EncryptAndSign, rand.Read. run. rewrite Hjs.
  destruct (decide _); [lia|reflexivity].
Qed.

(** The part of [DecryptAndVerify] that follows the decoding. *)
Lemma DecryptAndVerify_decode_error (c : Crypto) text (dest : V) aad w e :
  base64.DecodeString base64.StdEncoding text = Err e →
  DecryptAndVerify c text dest aad w =
    (Err (ErrWrap "failed to decode base64" e), w).
Proof. intros H. unfold DecryptAndVerify. run. now rewrite H. Qed.

Lemma DecryptAndVerify_short (c : Crypto) text (dest : V) aad w decoded :
  base64.DecodeString base64.StdEncoding text = Ok decoded →
  (length decoded < minLength c)%nat →
  DecryptAndVerify c text dest aad w = (Err ErrInvalidSessionData, w).
Proof.
  intros H Hlen. unfold DecryptAndVerify, minLength in *. run. rewrite H.
  destruct (signingKey c); destruct (decide _); try lia; reflexivity.
Qed.

Lemma DecryptAndVerify_bad_signature (c : Crypto) text (dest : V) aad w decoded key :
  signingKey c = Some key →
  base64.DecodeString base64.StdEncoding text = Ok decoded →
  (minLength c ≤ length decoded)%nat →
  sign c (drop 32 decoded) ≠ take 32 decoded →
  DecryptAndVerify c text dest aad w = (Err ErrSignatureInvalid, w).
Proof.
  intros Hkey H Hlen Hsig. unfold DecryptAndVerify, minLength in *. run.
  rewrite H, Hkey in *. destruct (decide _); [lia|].
  unfold verify. rewrite ConstantTimeCompare_spec.
  destruct (decide _) as [E|_]; [congruence|reflexivity].
Qed.

(** Past the checks, the cipher is called once, on the nonce and the
    ciphertext of the envelope and on the caller's additional data. *)
Lemma DecryptAndVerify_open (c : Crypto) text (dest : V) aad w decoded :
  base64.DecodeString base64.StdEncoding text = Ok decoded →
  (minLength c ≤ length decoded)%nat →
  (∀ key, signingKey c = Some key → sign c (drop 32 decoded) = take 32 decoded) →
  let body := match signingKey c with Some _ => drop 32 decoded | None => decoded end in
  let nonce := take (@NonceSize (aead c)) body in
  let ciphertext := drop (@NonceSize (aead c)) body in
  DecryptAndVerify c text dest aad w =
    match @Open (aead c) [] nonce ciphertext aad with
    | None => (Err ErrEncryptionFailed, log (CallOpen nonce ciphertext aad) w)
    | Some plaintext =>
        (match json_Unmarshal plaintext dest with
         | Ok v => Ok v
         | Err e => Err (ErrWrap "failed to unmarshal data" e)
         end, log (CallOpen nonce ciphertext aad) w)
    end.
Proof.
  intros H Hlen Hsig. unfold DecryptAndVerify, minLength, aead_Open in *. run.
  rewrite H. destruct (signingKey c) as [key|].
  - destruct (decide _); [lia|]. unfold verify.
    rewrite ConstantTimeCompare_spec, (Hsig key eq_refl).
    destruct (decide _) as [_|]; [|contradiction]. cbn.
    destruct (Open _ _ _ _); [|reflexivity].
    destruct (json_Unmarshal _ _); reflexivity.
  - destruct (decide _); [lia|]. cbn.
    destruct (Open _ _ _ _); [|reflexivity].
    destruct (json_Unmarshal _ _); reflexivity.
Qed.


Context {macOK : HMACLaws mac}.

Lemma sign_length (c : Crypto) (data : bytes) : 32%nat = length (sign c data).
Proof. unfold sign. now rewrite hmac_sha256_size. Qed.

(** What [DecryptAndVerify] does with an envelope of [EncryptAndSign]. *)
Lemma DecryptAndVerify_envelope (c : Crypto) {aeadOK : AEADLaws (aead c)}
  (nonce js aad aad' : bytes) (dest : V) (w : World) :
  length nonce = @NonceSize (aead c) → js ≠ [] →
  let sealed := @Seal (aead c) [] nonce js aad in
  DecryptAndVerify c (envelope c nonce js aad) dest aad' w =
    match @Open (aead c) [] nonce sealed aad' with
    | None => (Err ErrEncryptionFailed, log (CallOpen nonce sealed aad') w)
    | Some plaintext =>
        (match json_Unmarshal plaintext dest with
         | Ok v => Ok v
         | Err e => Err (ErrWrap "failed to unmarshal data" e)
         end, log (CallOpen nonce sealed aad') w)
    end.
Proof.
  intros Hnonce Hjs sealed.
  assert (Hct : @Seal (aead c) nonce nonce js aad = nonce ++ sealed)
    by apply Seal_appends.
  assert (Hlen : length sealed = (length js + @Overhead (aead c))%nat)
    by apply Seal_length.
  assert (0 < length js)%nat by (destruct js; [contradiction|simpl; lia]).
  rewrite (DecryptAndVerify_open c _ dest aad' w (sealed_bytes c nonce js aad)).
  - unfold sealed_bytes. rewrite Hct. destruct (signingKey c).
    + rewrite drop_app_length' by apply sign_length.
      rewrite take_app_length', drop_app_length' by auto. reflexivity.
    + rewrite take_app_length', drop_app_length' by auto. reflexivity.
  - apply DecodeString_EncodeToString.
  - unfold minLength, sealed_bytes. rewrite Hct.
    destruct (signingKey c); rewrite ?length_app, ?Hlen, ?Hnonce,
      <- ?sign_length; lia.
  - intros key Hkey. unfold sealed_bytes. rewrite Hkey.
    rewrite drop_app_length', take_app_length' by apply sign_length.
    reflexivity.
Qed.

End envelope_facts.

(** ** The reference collaborators keep the contracts *)

Lemma put_int_length width z : length (Reference.put_int width z) = width.
Proof. unfold Reference.put_int. now rewrite length_map, length_seq. Qed.

Lemma digest_length width data : length (Reference.digest width data) = width.
Proof. apply put_int_length. Qed.

Lemma shift_back (k : Z) (b : byte) :
  byte_of_Z (byte_val (byte_of_Z (byte_val b + k)) - k) = b.
Proof.
  apply byte_of_Z_val. rewrite byte_val_of_Z.
  pose proof (byte_val_range b). Z.div_mod_to_equations. lia.
Qed.

Lemma shift_back_all (k : Z) (pt : bytes) :
  map (λ b, byte_of_Z (byte_val b - k)) (map (λ b, byte_of_Z (byte_val b + k)) pt)
  = pt.
Proof.
  induction pt as [|b pt IH]; [reflexivity|].
  cbn [map]. now rewrite shift_back, IH.
Qed.

#[global] Instance cipher_laws (key : bytes) : AEADLaws (Reference.cipher key).
Proof.
  split.
  - intros dst nonce pt aad. reflexivity.
  - intros nonce pt aad. cbn -[Reference.tag Reference.shift_of].
    rewrite length_app, length_map. unfold Reference.tag.
    now rewrite digest_length.
  - intros nonce pt aad _. cbn -[Reference.tag Reference.shift_of].
    set (k := Reference.shift_of key nonce).
    set (ct := map (λ b, byte_of_Z (byte_val b + k)) pt).
    set (t := Reference.tag key nonce aad ct).
    assert (Ht : length t = 16%nat) by apply digest_length.
    rewrite length_app, Ht.
    destruct (decide _); [lia|].
    replace (length ct + 16 - 16)%nat with (length ct) by lia.
    rewrite take_app_length, drop_app_length. fold t.
    destruct (decide _); [|contradiction].
    f_equal. apply shift_back_all.
Qed.

#[global] Instance keyed_checksum_laws : HMACLaws Reference.keyed_checksum.
Proof. split. intros key data. apply digest_length. Qed.

(** ** The claims on the envelope *)

(** What the session's own marshaller and unmarshaller keep: every field
    but [isNew], which is not written and comes back [false], and a nil
    map of values, which comes back allocated. *)
Lemma Session_json_round_trip {dto_json : JSON sessionDTO} (s dest : Session.t) js :
  json_Marshal (Session.to_dto s) = Ok js →
  json_Unmarshal js sessionDTO_zero = Ok (Session.to_dto s) →
  json_Marshal s = Ok js ∧ json_Unmarshal js dest = Ok (persisted s).
Proof.
  intros Hm Hu. split; [exact Hm|].
  cbn. unfold Session.UnmarshalJSON. rewrite Hu. reflexivity.
Qed.

Lemma persisted_fixed (s : Session.t) :
  persisted s = s ↔ Session.isNew s = false ∧ Session.values s ≠ None.
Proof.
  destruct s as [i n [g|] nw c u e]; unfold persisted; cbn; split.
  - intros [= <-]. split; [reflexivity|discriminate].
  - intros [-> _]. reflexivity.
  - intros [= Hv]; discriminate.
  - intros [_ H]. contradiction.
Qed.

(** The envelope of a session opens to what is kept of it. *)
Lemma Session_envelope_round_trip
  {mac : HMAC} {macOK : HMACLaws mac} {dto_json : JSON sessionDTO}
  (a : AEAD) {aeadOK : AEADLaws a} (key : option bytes)
  (s dest : Session.t) (aad : bytes) (w : World) (js : bytes) :
  json_Marshal (Session.to_dto s) = Ok js → js ≠ [] →
  json_Unmarshal js sessionDTO_zero = Ok (Session.to_dto s) →
  (@NonceSize a ≤ length (entropy w))%nat →
  ∃ text w1,
    EncryptAndSign (NewCrypto a key) s aad w = (Ok text, w1)
    ∧ ∀ w2, (DecryptAndVerify (NewCrypto a key) text dest aad w2).1
            = Ok (persisted s).
Proof.
  intros Hm Hne Hu Hent.
  destruct (Session_json_round_trip s dest js Hm Hu) as [Hms Hus].
  set (c := NewCrypto a key).
  pose proof (EncryptAndSign_run c s aad w js Hms Hent) as Henc. cbv zeta in Henc.
  eexists _, _. split; [exact Henc|]. intros w2.
  rewrite (DecryptAndVerify_envelope c (aeadOK := aeadOK)); [| |exact Hne].
  - cbv zeta. rewrite Open_Seal; [now rewrite Hus|].
    rewrite length_take. cbn in *. lia.
  - rewrite length_take. cbn in *. lia.
Qed.



(** C4, as the code has it.  A text that is not base64 fails with the
    decoder's error wrapped in "failed to decode base64", which is not
    [ErrInvalidSessionData]; a text whose bytes are fewer than the
    signature (with a signing key), the nonce, the overhead of the cipher
    and one byte of plaintext fails with [ErrInvalidSessionData].  Neither
    touches the world. *)
Theorem DecryptAndVerify_undecodable_or_short
  {mac : HMAC} {V : Type} {codec : JSON V}
  (c : Crypto) (text : string) (dest : V) (aad : bytes) (w : World) :
  (∀ e, base64.DecodeString base64.StdEncoding text = Err e →
        DecryptAndVerify c text dest aad w
        = (Err (ErrWrap "failed to decode base64" e), w)
        ∧ errors_Is (ErrWrap "failed to decode base64" e) ErrInvalidSessionData
          = false)
  ∧ (∀ decoded, base64.DecodeString base64.StdEncoding text = Ok decoded →
        (length decoded <
           match signingKey c with Some _ => 32 | None => 0 end + @NonceSize (aead c)
           + @Overhead (aead c) + 1)%nat →
        DecryptAndVerify c text dest aad w = (Err ErrInvalidSessionData, w)).
Proof.
  split.
  - intros e He. split; [now apply DecryptAndVerify_decode_error|].
    unfold base64.DecodeString in He.
    destruct (base64.decode_quanta _ _); [discriminate|].
    injection He as <-. reflexivity.
  - intros decoded Hd Hlen. apply (DecryptAndVerify_short c _ _ _ _ decoded Hd).
    unfold minLength. destruct (signingKey c); lia.
Qed.

Lemma DecryptAndVerify_undecodable_or_short_witness :
  @DecryptAndVerify Reference.keyed_checksum _
     (@Session.Session_JSON Reference.record_encoding)
     Reference.signing "!" Session.zero [] Reference.world
  = (Err (ErrWrap "failed to decode base64" CorruptInputError), Reference.world)
  ∧ @DecryptAndVerify Reference.keyed_checksum _
     (@Session.Session_JSON Reference.record_encoding)
     Reference.signing "AAAA" Session.zero [] Reference.world
  = (Err ErrInvalidSessionData, Reference.world).
Proof.
  split.
  - apply (@DecryptAndVerify_undecodable_or_short Reference.keyed_checksum _
             (@Session.Session_JSON Reference.record_encoding)
             Reference.signing "!" Session.zero [] Reference.world).
    reflexivity.
  - apply (proj2 (@DecryptAndVerify_undecodable_or_short Reference.keyed_checksum _
             (@Session.Session_JSON Reference.record_encoding)
             Reference.signing "AAAA" Session.zero [] Reference.world)
             [x00; x00; x00]).
    + reflexivity.
    + vm_compute. lia.
Defined.

(** C4, as the claim has it, fails on the text "!": the decoder rejects
    it, and the error of the call is not [ErrInvalidSessionData], by
    equality and by [errors.Is]. *)
Lemma DecryptAndVerify_undecodable_counterexample :
  let r := (@DecryptAndVerify Reference.keyed_checksum _
              (@Session.Session_JSON Reference.record_encoding)
              Reference.signing "!" Session.zero [] Reference.world).1 in
  is_Ok (base64.DecodeString base64.StdEncoding "!") = false
  ∧ r ≠ Err ErrInvalidSessionData
  ∧ match r with
    | Err e => errors_Is e ErrInvalidSessionData = false
    | Ok _ => False
    end.
Proof. vm_compute. repeat split; discriminate. Qed.

(** C5. With a signing key and enough bytes, an envelope whose first
    thirty-two bytes are not the HMAC of the rest fails with
    [ErrSignatureInvalid], and the world after the call is the world
    before it: no call to [Open] was made. *)
Theorem DecryptAndVerify_signature_mismatch
  {mac : HMAC} {V : Type} {codec : JSON V}
  (c : Crypto) (key : bytes) (text : string) (dest : V) (aad : bytes)
  (w : World) (decoded : bytes) :
  signingKey c = Some key →
  base64.DecodeString base64.StdEncoding text = Ok decoded →
  (32 + @NonceSize (aead c) + @Overhead (aead c) + 1 ≤ length decoded)%nat →
  hmac_sha256 key (drop 32 decoded) ≠ take 32 decoded →
  ∃ w', DecryptAndVerify c text dest aad w = (Err ErrSignatureInvalid, w')
        ∧ calls w' = calls w
        ∧ ∀ nonce ciphertext aad', CallOpen nonce ciphertext aad' ∈ calls w' →
                                   CallOpen nonce ciphertext aad' ∈ calls w.
Proof.
  intros Hkey Hd Hlen Hsig. exists w. split; [|auto].
  apply (DecryptAndVerify_bad_signature c text dest aad w decoded key Hkey Hd).
  - unfold minLength. now rewrite Hkey.
  - unfold sign. now rewrite Hkey.
Qed.

Lemma DecryptAndVerify_signature_mismatch_witness :
  ∃ w', @DecryptAndVerify Reference.keyed_checksum _
          (@Session.Session_JSON Reference.record_encoding)
          Reference.signing Reference.blank Session.zero [] Reference.world
        = (Err ErrSignatureInvalid, w')
        ∧ calls w' = calls Reference.world
        ∧ ∀ nonce ciphertext aad',
            CallOpen nonce ciphertext aad' ∈ calls w' →
            CallOpen nonce ciphertext aad' ∈ calls Reference.world.
Proof.
  eapply (@DecryptAndVerify_signature_mismatch Reference.keyed_checksum _
            (@Session.Session_JSON Reference.record_encoding)
            Reference.signing Reference.signKey Reference.blank).
  - reflexivity.
  - vm_compute. reflexivity.
  - vm_compute. lia.
  - vm_compute. discriminate.
Defined.

(** *** Additional data *)

Lemma all_bytes_complete (b : byte) : b ∈ all_bytes.
Proof.
  unfold all_bytes. apply list_elem_of_In, in_map_iff.
  exists (Z.to_nat (byte_val b)). pose proof (byte_val_range b). split.
  - rewrite Z2Nat.id by lia. apply byte_of_Z_byte_val.
  - apply in_seq. lia.
Qed.

Lemma all_lists_complete (l : bytes) : l ∈ all_lists (length l).
Proof.
  induction l as [|b l IH]; cbn [length all_lists].
  - apply list_elem_of_here.
  - apply list_elem_of_bind. exists b. split; [|apply all_bytes_complete].
    apply list_elem_of_bind. exists l. split; [apply list_elem_of_here|exact IH].
Qed.

Lemma collision {A B} `{EqDecision B} (f : A → B) (l : list A) :
  NoDup l → ¬ NoDup (f <$> l) → ∃ x y, x ≠ y ∧ f x = f y.
Proof.
  induction l as [|a l IH]; intros Hnd Hdup.
  - destruct Hdup. constructor.
  - apply NoDup_cons in Hnd as [Ha Hl].
    destruct (decide (f a ∈ f <$> l)) as [Hin|Hout].
    + apply list_elem_of_fmap in Hin as (y & Hy & Hyl).
      exists a, y. split; [|exact Hy]. intros ->. contradiction.
    + apply IH; [exact Hl|]. intros H'. apply Hdup. cbn. apply NoDup_cons. auto.
Qed.

Lemma pigeonhole {A} `{EqDecision A} (l k : list A) :
  (∀ x, x ∈ l → x ∈ k) → (length k < length l)%nat → ¬ NoDup l.
Proof.
  intros Hin Hlen Hnd.
  pose proof (submseteq_length _ _ (NoDup_submseteq _ _ Hnd Hin)). lia.
Qed.

(** A cipher that keeps the contract cannot refuse every other additional
    data: the sealed texts of one plaintext have one length, so two
    additional data give the same sealed text, which then opens under
    both.  That a sealed text is refused under other additional data is
    therefore a hypothesis about the sealed text at hand, not a law. *)
Lemma additional_data_cannot_always_bind (a : AEAD) {laws : AEADLaws a}
  (nonce pt : bytes) :
  length nonce = @NonceSize a →
  ∃ A B, A ≠ B ∧ @Open a [] nonce (@Seal a [] nonce pt A) B = Some pt.
Proof.
  intros Hn.
  set (L := (length pt + @Overhead a)%nat).
  set (f := λ i : nat, @Seal a [] nonce pt (replicate i x00)).
  set (K := length (all_lists L)).
  assert (Hdup : ¬ NoDup (f <$> seq 0 (S K))).
  { apply (pigeonhole _ (all_lists L)).
    - intros x Hx. apply list_elem_of_fmap in Hx as (i & -> & _).
      replace L with (length (f i)) by apply Seal_length.
      apply all_lists_complete.
    - rewrite length_fmap, length_seq. fold K. lia. }
  destruct (collision f (seq 0 (S K)) (NoDup_seq _ _) Hdup) as (i & j & Hij & Hf).
  exists (replicate i x00), (replicate j x00). split.
  - intros E. apply Hij. apply (f_equal length) in E.
    now rewrite !length_replicate in E.
  - unfold f in Hf. rewrite Hf. now apply Open_Seal.
Qed.



(** ** The client *)

Lemma round_trip_up n w :
  up (S n) w = true →
  ∃ w', client.round_trip w = (Ok tt, w')
        ∧ clock w' = clock w ∧ entropy w' = entropy w ∧ redis w' = redis w
        ∧ response w' = response w ∧ calls w' = calls w ∧ up n w' = true.
Proof.
  unfold up, client.round_trip. destruct w as [clk ent db nt resp cl]. cbn.
  destruct nt as [|[e|] nt]; cbn.
  - intros _. eexists. repeat split. cbn. now rewrite take_nil.
  - discriminate.
  - intros H. eexists. repeat split. exact H.
Qed.

Lemma round_trip_frame w r w' :
  client.round_trip w = (r, w') →
  clock w' = clock w ∧ entropy w' = entropy w ∧ redis w' = redis w
  ∧ response w' = response w ∧ calls w' = calls w.
Proof.
  unfold client.round_trip. destruct w as [clk ent db nt resp cl]. cbn.
  destruct nt as [|[e|] nt]; intros [= <- <-]; repeat split.
Qed.

Lemma run_up cmd n w :
  up (S n) w = true →
  ∃ w', client.run cmd w = (Ok tt, w')
        ∧ clock w' = clock w ∧ entropy w' = entropy w
        ∧ redis w' = client.apply_command (clock w) cmd (redis w)
        ∧ response w' = response w ∧ calls w' = CallRedis cmd :: calls w
        ∧ up n w' = true.
Proof.
  intros Hup. unfold client.run. run.
  destruct (round_trip_up n (log (CallRedis cmd) w) Hup)
    as (w1 & -> & Hc & He & Hr & Hp & Hl & Hu).
  eexists. split; [reflexivity|]. cbn. rewrite Hc, He, Hr, Hp, Hl.
  repeat split. exact Hu.
Qed.

Lemma run_frame cmd w r w' :
  client.run cmd w = (r, w') →
  clock w' = clock w ∧ entropy w' = entropy w ∧ response w' = response w
  ∧ calls w' = CallRedis cmd :: calls w
  ∧ match r with
    | Ok _ => redis w' = client.apply_command (clock w) cmd (redis w)
    | Err _ => redis w' = redis w
    end.
Proof.
  unfold client.run. run.
  destruct (client.round_trip (log (CallRedis cmd) w)) as [[[]|e] w1] eqn:E;
    apply round_trip_frame in E as (Hc & He & Hr & Hp & Hl);
    intros [= <- <-]; cbn; rewrite ?Hc, ?He, ?Hr, ?Hp, ?Hl; repeat split.
Qed.

Lemma run_down cmd w e :
  head (net w) = Some (Some e) →
  ∃ w', client.run cmd w = (Err e, w').
Proof.
  intros H. unfold client.run, client.round_trip. run. cbn.
  destruct (net w) as [|[e'|] nt]; try discriminate.
  injection H as ->. eexists. reflexivity.
Qed.

Lemma Exec_up cmds n w :
  up (S n) w = true →
  ∃ w', client.Exec cmds w = (Ok tt, w')
        ∧ clock w' = clock w ∧ entropy w' = entropy w
        ∧ redis w' = fold_left (λ db cmd, client.apply_command (clock w) cmd db)
                       cmds (redis w)
        ∧ response w' = response w ∧ calls w' = CallExec cmds :: calls w
        ∧ up n w' = true.
Proof.
  intros Hup. unfold client.Exec. run.
  destruct (round_trip_up n (log (CallExec cmds) w) Hup)
    as (w1 & -> & Hc & He & Hr & Hp & Hl & Hu).
  eexists. split; [reflexivity|]. cbn. rewrite Hc, He, Hr, Hp, Hl.
  repeat split. exact Hu.
Qed.


Lemma rotateSessionScript_Run_up oldKey newKey encrypted px n w :
  up (S n) w = true → 0 < px →
  ∃ w', client.rotateSessionScript_Run oldKey newKey encrypted px w = (Ok tt, w')
        ∧ clock w' = clock w ∧ entropy w' = entropy w
        ∧ redis w' = fold_left (λ db cmd, client.apply_command (clock w) cmd db)
                       [SET newKey encrypted (px * time.Millisecond); DEL oldKey]
                       (redis w)
        ∧ response w' = response w
        ∧ calls w' = CallScript [oldKey; newKey] encrypted px :: calls w
        ∧ up n w' = true.
Proof.
  intros Hup Hpx. unfold client.rotateSessionScript_Run. run.
  destruct (round_trip_up n (log (CallScript [oldKey; newKey] encrypted px) w) Hup)
    as (w1 & -> & Hc & He & Hr & Hp & Hl & Hu).
  destruct (Z.leb_spec px 0); [lia|].
  eexists. split; [reflexivity|]. cbn -[client.apply_command].
  rewrite Hc, He, Hr, Hp, Hl. repeat split. exact Hu.
Qed.


(** ** Frames: what the envelope leaves alone *)

Section frames.
Context {mac : HMAC} {V : Type} {codec : JSON V}.

Lemma EncryptAndSign_frame (c : Crypto) (v : V) aad w r w' :
  EncryptAndSign c v aad w = (r, w') →
  clock w' = clock w ∧ redis w' = redis w ∧ net w' = net w
  ∧ response w' = response w.
Proof.
  unfold EncryptAndSign, aead_Seal, rand.Read. run.
  destruct (json_Marshal v); [|intros [= <- <-]; auto].
  destruct (decide _); [|intros [= <- <-]; auto].
  destruct (signingKey c); intros [= <- <-]; auto.
Qed.

Lemma DecryptAndVerify_frame (c : Crypto) text (dest : V) aad w r w' :
  DecryptAndVerify c text dest aad w = (r, w') →
  clock w' = clock w ∧ entropy w' = entropy w ∧ redis w' = redis w
  ∧ net w' = net w ∧ response w' = response w.
Proof.
  unfold DecryptAndVerify, aead_Open. run.
  destruct (base64.DecodeString _ _); [|intros [= <- <-]; auto].
  destruct (signingKey c).
  - destruct (decide _); [intros [= <- <-]; auto|].
    destruct (negb _); [intros [= <- <-]; auto|]. cbn.
    destruct (Open _ _ _ _); [|intros [= <- <-]; auto].
    destruct (json_Unmarshal _ _); intros [= <- <-]; auto.
  - destruct (decide _); [intros [= <- <-]; auto|]. cbn.
    destruct (Open _ _ _ _); [|intros [= <- <-]; auto].
    destruct (json_Unmarshal _ _); intros [= <- <-]; auto.
Qed.

End frames.

Lemma up_net n w w' : net w' = net w → up n w' = up n w.
Proof. unfold up. now intros ->. Qed.

Lemma GenerateSessionID_run {mac : HMAC} (c : Crypto) w :
  (32 ≤ length (entropy w))%nat →
  GenerateSessionID c w =
    (Ok (base64.EncodeToString base64.RawURLEncoding (take 32 (entropy w))),
     set_entropy (drop 32 (entropy w)) w).
Proof.
  intros H. unfold GenerateSessionID, rand.Read. run.
  destruct (decide _); [reflexivity|lia].
Qed.

Lemma GenerateSessionID_error {mac : HMAC} (c : Crypto) w :
  (length (entropy w) < 32)%nat →
  GenerateSessionID c w =
    (Err (ErrWrap "failed to generate session ID" ErrUnexpectedEOF),
     set_entropy [] w).
Proof.
  intros H. unfold GenerateSessionID, rand.Read. run.
  destruct (decide _); [lia|reflexivity].
Qed.

(** ** time *)

Lemma Sub_nonpos t u : time.Sub t u ≤ 0 ↔ t - u ≤ 0.
Proof.
  unfold time.Sub, time.minDuration, time.maxDuration.
  change (2 ^ 63) with 9223372036854775808. lia.
Qed.

Lemma Sub_exact t u :
  time.minDuration ≤ t - u ≤ time.maxDuration → time.Sub t u = t - u.
Proof.
  unfold time.Sub, time.minDuration, time.maxDuration.
  change (2 ^ 63) with 9223372036854775808. lia.
Qed.

(** ** The claims on the store *)

Section store_facts.
Context {mac : HMAC} {dto_json : JSON sessionDTO}.

(** C7. [Save] of a session whose [expiresAt] is not after the clock
    fails with [ErrSessionExpired] and leaves the world as it was: no
    command went to the server, no cookie to the response.  [Save] of a
    session with time to live, once the envelope is made and the server is
    reached, writes the envelope under prefix, name, ":" and id, with the
    expiry of the key equal to [expiresAt] minus the clock.  Every other
    way [Save] fails leaves the key space and the response as they were. *)
Theorem Save_expired_or_written
  (s : RedisStore) (r : Request) (session : Session.t) (w : World) :
  let ttl := Session.expiresAt session - clock w in
  let key := prefix s +:+ Session.name session +:+ ":" +:+ Session.id session in
  (ttl ≤ 0 → Save s r session w = (Err ErrSessionExpired, w))
  ∧ (0 < ttl ≤ time.maxDuration →
     ∀ encrypted w1,
       EncryptAndSign (crypto s) session
         (bytes_of_string (Session.name session)) w = (Ok encrypted, w1) →
       up 1 w = true →
       ∃ w2 cookie,
         Save s r session w = (Ok tt, w2)
         ∧ redis w2 = <[key := {| entry_value := encrypted;
                                  entry_deadline := Some (clock w + ttl) |}]> (redis w)
         ∧ calls w2 = CallRedis (SET key encrypted ttl) :: calls w1
         ∧ response w2 = response w ++ [cookie]
         ∧ Cookie_Name cookie = Session.name session
         ∧ Cookie_Value cookie = Session.id session)
  ∧ (∀ e w2, Save s r session w = (Err e, w2) →
             redis w2 = redis w ∧ response w2 = response w).
Proof.
  intros ttl key. unfold Save, time.Until, time.Now, client.Set_, NewCookie,
    http_SetCookie, Session.ExpiresAt, Session.Name, Session.ID, redisKey.
  run. fold key.
  pose proof (Sub_nonpos (Session.expiresAt session) (clock w)) as Hnp.
  fold ttl in Hnp.
  destruct (Z.leb_spec (time.Sub (Session.expiresAt session) (clock w)) 0) as [Hle|Hgt].
  - split; [reflexivity|]. split; [intros; lia|].
    intros e w2 [= <- <-]. auto.
  - split; [intros; lia|]. split.
    + intros Httl encrypted w1 Henc Hup. rewrite Henc.
      destruct (EncryptAndSign_frame _ _ _ _ _ _ Henc) as (Hc & Hr & Hn & Hp).
      rewrite <- (up_net 1 w w1 Hn) in Hup.
      destruct (run_up (SET key encrypted
                          (time.Sub (Session.expiresAt session) (clock w))) 0 w1 Hup)
        as (w2 & -> & Hc2 & He2 & Hr2 & Hp2 & Hl2 & _).
      eexists _, _. split; [reflexivity|]. cbn.
      rewrite Hr2, Hl2, Hp2, Hc, Hr, Hp, Sub_exact
        by (unfold time.minDuration, time.maxDuration in *;
            change (2 ^ 63) with 9223372036854775808 in *; lia).
      fold ttl. cbn. destruct (Z.ltb_spec 0 ttl); [|lia].
      repeat split.
    + intros e w2.
      destruct (EncryptAndSign _ _ _ w) as [[encrypted|e1] w1] eqn:Henc;
        destruct (EncryptAndSign_frame _ _ _ _ _ _ Henc) as (Hc & Hr & Hn & Hp).
      * destruct (client.run _ w1) as [[[]|e2] w3] eqn:Hrun;
          destruct (run_frame _ _ _ _ Hrun) as (Hc3 & He3 & Hp3 & _ & Hr3).
        -- discriminate.
        -- intros [= <- <-]. rewrite Hr3, Hp3. auto.
      * intros [= <- <-]. auto.
Qed.

(** *** Resolving an identifier *)

Lemma load_fetch_failed (s : RedisStore) (name sessionID : string) w e w1 :
  client.Get (redisKey s name sessionID) w = (Err e, w1) →
  load s name sessionID w =
    (Err (if errors_Is e RedisNil then ErrSessionNotFound else e), w1).
Proof.
  intros H. unfold load. run. rewrite H. cbn.
  destruct (errors_Is e RedisNil); reflexivity.
Qed.

Lemma New_after_failed_load (s : RedisStore) (r : Request) (name sessionID : string)
  w e w1 :
  Request_Cookie r name = Ok sessionID →
  load s name sessionID w = (Err e, w1) →
  (32 ≤ length (entropy w1))%nat →
  New s r name w =
    (Ok (fresh_session s name w1), set_entropy (drop 32 (entropy w1)) w1).
Proof.
  intros Hc Hl He. unfold New. run. rewrite Hc. run. rewrite Hl. cbn.
  rewrite (GenerateSessionID_run _ _ He). reflexivity.
Qed.

Lemma New_without_cookie (s : RedisStore) (r : Request) (name : string) w e :
  Request_Cookie r name = Err e →
  (32 ≤ length (entropy w))%nat →
  New s r name w =
    (Ok (fresh_session s name w), set_entropy (drop 32 (entropy w)) w).
Proof.
  intros Hc He. unfold New. run. rewrite Hc. cbn.
  rewrite (GenerateSessionID_run _ _ He). reflexivity.
Qed.

Lemma New_error (s : RedisStore) (r : Request) (name : string) w e w' :
  New s r name w = (Err e, w') →
  e = ErrWrap "failed to generate session ID" ErrUnexpectedEOF.
Proof.
  unfold New, GenerateSessionID, rand.Read, Session.NewSession, time.Now. run.
  destruct (Request_Cookie r name) as [sid|e0]; cbn.
  - destruct (load s name sid w) as [[l|e1] w1]; cbn; [discriminate|].
    destruct (decide _); cbn; intros [= <- <-]; reflexivity.
  - destruct (decide _); cbn; intros [= <- <-]; reflexivity.
Qed.

(** C2, as the code has it.  [load] hands a transport error of the fetch
    to its caller unchanged, but its caller [New] looks at no error of
    [load]: whatever [load] fails with, a transport error included, [New]
    answers with a freshly made session, [isNew] set and no value in it,
    and the only error [New] itself returns is that of the identifier
    generator. *)
Theorem New_makes_session_on_every_load_error
  (s : RedisStore) (r : Request) (name sessionID : string) (w : World) :
  (∀ e w1, client.Get (redisKey s name sessionID) w = (Err e, w1) →
           errors_Is e RedisNil = false →
           load s name sessionID w = (Err e, w1))
  ∧ (∀ e w1, Request_Cookie r name = Ok sessionID →
             load s name sessionID w = (Err e, w1) →
             (32 ≤ length (entropy w1))%nat →
             ∃ fresh w2, New s r name w = (Ok fresh, w2)
                         ∧ Session.isNew fresh = true
                         ∧ Session.values fresh = Some ∅
                         ∧ Session.name fresh = name)
  ∧ (∀ e w2, New s r name w = (Err e, w2) →
             e = ErrWrap "failed to generate session ID" ErrUnexpectedEOF).
Proof.
  split; [|split].
  - intros e w1 Hget Hnil. rewrite (load_fetch_failed _ _ _ _ _ _ Hget), Hnil.
    reflexivity.
  - intros e w1 Hc Hl He. rewrite (New_after_failed_load _ _ _ _ _ _ _ Hc Hl He).
    eexists _, _. split; [reflexivity|]. auto.
  - intros e w2. apply New_error.
Qed.



(** *** Rotating the identifier *)

Lemma RotateID_without_identifier (s : RedisStore) (r : Request) session w :
  (length (entropy w) < 32)%nat →
  RotateID s r (session, w) =
    (Err (ErrWrap "failed to generate session ID" ErrUnexpectedEOF),
     (session, set_entropy [] w)).
Proof.
  intros H. unfold RotateID, the_session, in_world. run.
  rewrite (GenerateSessionID_error _ _ H). reflexivity.
Qed.

Lemma RotateID_session (s : RedisStore) (r : Request) session w res session' w' :
  (32 ≤ length (entropy w))%nat →
  RotateID s r (session, w) = (res, (session', w')) →
  session' = Session.setID session
               (base64.EncodeToString base64.RawURLEncoding (take 32 (entropy w))).
Proof.
  intros H. unfold RotateID, the_session, in_world, on_session, NewCookie,
    http_SetCookie, time.Until, time.Now. run.
  rewrite (GenerateSessionID_run _ _ H). cbn.
  destruct (EncryptAndSign _ _ _ _) as [[encrypted|e1] w1];
    [|intros [= _ <- _]; reflexivity].
  destruct (client.Exec _ _) as [[[]|e2] w2]; intros [= _ <- _]; reflexivity.
Qed.

Lemma RotateID_script_without_identifier (s : RedisStore) (r : Request) session w :
  (length (entropy w) < 32)%nat →
  RotateID_script s r (session, w) =
    (Err (ErrWrap "failed to generate session ID" ErrUnexpectedEOF),
     (session, set_entropy [] w)).
Proof.
  intros H. unfold RotateID_script, the_session, in_world. run.
  rewrite (GenerateSessionID_error _ _ H). reflexivity.
Qed.

Lemma RotateID_script_session (s : RedisStore) (r : Request) session w
  res session' w' :
  (32 ≤ length (entropy w))%nat →
  RotateID_script s r (session, w) = (res, (session', w')) →
  session' = Session.setID session
               (base64.EncodeToString base64.RawURLEncoding (take 32 (entropy w))).
Proof.
  intros H. unfold RotateID_script, the_session, in_world, on_session, NewCookie,
    http_SetCookie, time.Until, time.Now. run.
  rewrite (GenerateSessionID_run _ _ H). cbn.
  destruct (EncryptAndSign _ _ _ _) as [[encrypted|e1] w1];
    [|intros [= _ <- _]; reflexivity].
  destruct (client.rotateSessionScript_Run _ _ _ _ _) as [[[]|e2] w2];
    intros [= _ <- _]; reflexivity.
Qed.

(** C3, as the code has it.  [RotateID], with the transaction and with
    the script, writes the new identifier into the session as soon as the
    generator has delivered it, before the envelope is made and before the
    server is called.  When the generator fails the session is as it was;
    in every other outcome, the failures of the encryption and of the
    server included, the session holds the new identifier. *)
Theorem RotateID_sets_identifier_before_the_remote_operation
  (s : RedisStore) (r : Request) (session : Session.t) (w : World) :
  let newID := base64.EncodeToString base64.RawURLEncoding (take 32 (entropy w)) in
  ((length (entropy w) < 32)%nat →
     (∃ e w', RotateID s r (session, w) = (Err e, (session, w')))
     ∧ (∃ e w', RotateID_script s r (session, w) = (Err e, (session, w'))))
  ∧ ((32 ≤ length (entropy w))%nat →
     ∀ res session' w',
       RotateID s r (session, w) = (res, (session', w'))
       ∨ RotateID_script s r (session, w) = (res, (session', w')) →
       Session.ID session' = newID
       ∧ session' = Session.setID session newID).
Proof.
  intros newID. split.
  - intros H. rewrite (RotateID_without_identifier _ _ _ _ H),
      (RotateID_script_without_identifier _ _ _ _ H). split; eauto.
  - intros H res session' w' [E|E].
    + rewrite (RotateID_session _ _ _ _ _ _ _ H E). auto.
    + rewrite (RotateID_script_session _ _ _ _ _ _ _ H E). auto.
Qed.

Lemma append_inj_r (p a b : string) : p +:+ a = p +:+ b → a = b.
Proof. induction p as [|c p IH]; cbn; [auto|]. intros [= H]. auto. Qed.

Lemma redisKey_inj (s : RedisStore) (name i j : string) :
  redisKey s name i = redisKey s name j → i = j.
Proof.
  unfold redisKey. intros H.
  repeat apply append_inj_r in H. exact H.
Qed.

(** C9, as the code has it.  When [RotateID] succeeds, the entry under
    the new identifier is the envelope of the session as it is in memory
    with the new identifier in it; its expiry is [expiresAt] minus the
    clock when that is positive and one second when it is not (in whole
    milliseconds with the script); the entry under the old identifier is
    gone. *)
Theorem RotateID_writes_session_under_new_identifier
  (s : RedisStore) (r : Request) (session : Session.t) (w : World)
  (encrypted : string) (w2 : World) :
  let oldID := Session.id session in
  let newID := base64.EncodeToString base64.RawURLEncoding (take 32 (entropy w)) in
  let oldKey := redisKey s (Session.name session) oldID in
  let newKey := redisKey s (Session.name session) newID in
  let remaining := Session.expiresAt session - clock w in
  let ttl := if remaining <=? 0 then time.Second else remaining in
  let written d := {| entry_value := encrypted; entry_deadline := Some (clock w + d) |} in
  (32 ≤ length (entropy w))%nat →
  EncryptAndSign (crypto s) (Session.setID session newID)
    (bytes_of_string (Session.name session))
    (set_entropy (drop 32 (entropy w)) w) = (Ok encrypted, w2) →
  up 1 w = true →
  remaining ≤ time.maxDuration →
  newID ≠ oldID →
  (∃ w',
     RotateID s r (session, w) = (Ok tt, (Session.setID session newID, w'))
     ∧ redis w' = delete oldKey (<[newKey := written ttl]> (redis w))
     ∧ redis w' !! newKey = Some (written ttl)
     ∧ redis w' !! oldKey = None
     ∧ calls w' = CallExec [SET newKey encrypted ttl; DEL oldKey] :: calls w2)
  ∧ (time.Millisecond ≤ ttl →
     ∃ w',
       RotateID_script s r (session, w) = (Ok tt, (Session.setID session newID, w'))
       ∧ redis w' !! newKey
         = Some (written (Z.quot ttl time.Millisecond * time.Millisecond))
       ∧ redis w' !! oldKey = None).
Proof.
  intros oldID newID oldKey newKey remaining ttl written Hent Henc Hup Hmax Hfresh.
  destruct (EncryptAndSign_frame _ _ _ _ _ _ Henc) as (Hc & Hr & Hn & Hp).
  cbn in Hc, Hr, Hn, Hp.
  rewrite <- (up_net 1 w w2 Hn) in Hup.
  assert (Httl : (if time.Sub (Session.expiresAt session) (clock w) <=? 0
                  then time.Second
                  else time.Sub (Session.expiresAt session) (clock w)) = ttl).
  { unfold ttl. fold remaining.
    pose proof (Sub_nonpos (Session.expiresAt session) (clock w)) as Hnp.
    fold remaining in Hnp.
    destruct (Z.leb_spec (time.Sub (Session.expiresAt session) (clock w)) 0),
             (Z.leb_spec remaining 0); try lia; try reflexivity.
    apply Sub_exact. fold remaining.
    unfold time.minDuration, time.maxDuration in *.
    change (2 ^ 63) with 9223372036854775808 in *. lia. }
  assert (Hpos : 0 < ttl).
  { unfold ttl, time.Second. destruct (Z.leb_spec remaining 0); lia. }
  assert (Hkeys : oldKey ≠ newKey).
  { intros E. apply redisKey_inj in E. congruence. }
  split.
  - unfold RotateID, the_session, in_world, on_session. run.
    rewrite (GenerateSessionID_run _ _ Hent). cbn.
    unfold time.Until, time.Now, Session.ExpiresAt, Session.Name, Session.ID. run. cbn.
    fold newID. rewrite Henc. fold oldKey newKey. rewrite Httl.
    change (redisKey s (Session.name session) (Session.id session)) with oldKey.
    destruct (Exec_up [SET newKey encrypted ttl; DEL oldKey] 0 w2 Hup)
      as (w3 & -> & Hc3 & He3 & Hr3 & Hp3 & Hl3 & _).
    unfold NewCookie, time.Until, time.Now, http_SetCookie. run.
    eexists. split; [reflexivity|]. cbn.
    assert (Hdb : redis w3 = delete oldKey (<[newKey := written ttl]> (redis w))).
    { rewrite Hr3. cbn. rewrite Hc, Hr.
      destruct (Z.ltb_spec 0 ttl); [reflexivity|lia]. }
    rewrite Hdb, Hl3. repeat split.
    + rewrite lookup_delete_ne by exact Hkeys. apply lookup_insert_eq.
    + apply lookup_delete_eq.
  - intros Hms.
    assert (Hpx : 0 < time.Milliseconds ttl).
    { unfold time.Milliseconds, time.Millisecond in *.
      apply Z.quot_str_pos. lia. }
    unfold RotateID_script, the_session, in_world, on_session. run.
    rewrite (GenerateSessionID_run _ _ Hent). cbn.
    unfold time.Until, time.Now, Session.ExpiresAt, Session.Name, Session.ID. run. cbn.
    fold newID. rewrite Henc. fold oldKey newKey. rewrite Httl.
    change (redisKey s (Session.name session) (Session.id session)) with oldKey.
    destruct (rotateSessionScript_Run_up oldKey newKey encrypted
                (time.Milliseconds ttl) 0 w2 Hup Hpx)
      as (w3 & -> & Hc3 & He3 & Hr3 & Hp3 & Hl3 & _).
    unfold NewCookie, time.Until, time.Now, http_SetCookie. run.
    eexists. split; [reflexivity|]. cbn.
    assert (Hdb : redis w3 = delete oldKey
                    (<[newKey := written (Z.quot ttl time.Millisecond
                                          * time.Millisecond)]> (redis w))).
    { rewrite Hr3. cbn. rewrite Hc, Hr. unfold time.Milliseconds in *.
      destruct (Z.ltb_spec 0 (Z.quot ttl time.Millisecond * time.Millisecond));
        [reflexivity|]. unfold time.Millisecond in *. lia. }
    rewrite Hdb. split.
    + rewrite lookup_delete_ne by exact Hkeys. apply lookup_insert_eq.
    + apply lookup_delete_eq.
Qed.

End store_facts.

(** ** The claim on the session *)

(** C10. [Set] allocates the map of values when it is nil and then
    assigns, so it returns on every session, the one whose map was never
    allocated included, where the assignment alone would panic; [Get] and
    [Delete] return on every session too.  [Get] after [Set] of the key is
    the value set and after [Set] of another key is what it was; [Get]
    after [Delete] is nil; [Get] on the session that was never written is
    nil. *)
Theorem Session_Set_Get_Delete_return
  (s : Session.t) (key key' : string) (val : iface) (now : Z) :
  (∃ s', Session.Set_ s key' val now = Some s'
         ∧ Session.values s' = Some (<[key' := val]> (default ∅ (Session.values s)))
         ∧ Session.Get s' key = if decide (key = key') then Some val
                                else Session.Get s key)
  ∧ (∃ v, Session.Get s key = Some v)
  ∧ (∃ s', Session.Delete s key now = Some s'
           ∧ Session.Get s' key = Some None)
  ∧ gomap.assign None key val = None
  ∧ (∃ s', Session.Set_ Session.zero key val now = Some s'
           ∧ Session.Get s' key = Some val)
  ∧ Session.Get Session.zero key = Some None
  ∧ (∃ s', Session.Delete Session.zero key now = Some s'
           ∧ Session.Get s' key = Some None)
  ∧ (∀ id maxAge w, ∃ s' w', Session.NewSession id maxAge w = (Ok s', w')
                             ∧ Session.Get s' key = Some None).
Proof.
  repeat split.
  - unfold Session.Set_, Session.Get. destruct s as [i n [g|] nw c u e]; cbn.
    + eexists. split; [reflexivity|]. split; [reflexivity|]. cbn.
      destruct (decide (key = key')) as [->|Hne].
      * now rewrite lookup_insert_eq.
      * now rewrite lookup_insert_ne by congruence.
    + eexists. split; [reflexivity|]. split; [reflexivity|]. cbn.
      destruct (decide (key = key')) as [->|Hne].
      * now rewrite lookup_insert_eq.
      * now rewrite lookup_insert_ne by congruence.
  - eexists. reflexivity.
  - unfold Session.Delete, Session.Get. eexists. split; [reflexivity|].
    destruct s as [i n [g|] nw c u e]; cbn; [|reflexivity].
    now rewrite lookup_delete_eq.
  - eexists. split; [reflexivity|]. unfold Session.Get. cbn.
    now rewrite lookup_insert_eq.
  - eexists. split; reflexivity.
  - intros id maxAge w. eexists _, _. split; reflexivity.
Qed.

(** ** The statements at work on the reference collaborators *)

Section at_work.
Local Existing Instance Reference.keyed_checksum.
Local Existing Instance Reference.record_encoding.

Lemma Save_expired_or_written_witness :
  Save Reference.store Reference.request Reference.alice Reference.late
  = (Err ErrSessionExpired, Reference.late)
  ∧ (∃ w2 cookie encrypted,
       Save Reference.store Reference.request Reference.alice Reference.world
       = (Ok tt, w2)
       ∧ redis w2 !! "test:session-name:c2Vzc2lvbi1vbmU"
         = Some {| entry_value := encrypted;
                   entry_deadline := Some (Reference.noon + 3600 * time.Second) |}
       ∧ response w2 = [cookie]
       ∧ Cookie_Value cookie = "c2Vzc2lvbi1vbmU")
  ∧ (∃ e w2,
       Save Reference.store Reference.request Reference.alice Reference.down
       = (Err e, w2)
       ∧ redis w2 = redis Reference.down ∧ response w2 = response Reference.down).
Proof.
  split; [|split].
  - apply (Save_expired_or_written Reference.store Reference.request
             Reference.alice Reference.late).
    vm_compute. discriminate.
  - edestruct (proj1 (proj2 (Save_expired_or_written Reference.store
                               Reference.request Reference.alice Reference.world)))
      as (w2 & cookie & HS & Hr & _ & Hp & _ & Hv).
    + vm_compute. split; [reflexivity|discriminate].
    + vm_compute. reflexivity.
    + reflexivity.
    + exists w2, cookie. eexists. split; [exact HS|]. rewrite Hr, Hp.
      split; [apply lookup_insert_eq|]. split; [reflexivity|exact Hv].
  - eexists _, _. split; [vm_compute; reflexivity|].
    eapply (proj2 (proj2 (Save_expired_or_written Reference.store
                            Reference.request Reference.alice Reference.down))).
    vm_compute. reflexivity.
Defined.

Lemma New_makes_session_on_every_load_error_witness :
  load Reference.store "session-name" "c2Vzc2lvbi1vbmU" Reference.down
  = (Err (ErrNetwork "connection refused"),
     log (CallRedis (GET "test:session-name:c2Vzc2lvbi1vbmU")) (set_net [] Reference.down))
  ∧ (∃ fresh w2,
       New Reference.store Reference.request "session-name" Reference.down
       = (Ok fresh, w2)
       ∧ Session.isNew fresh = true ∧ Session.values fresh = Some ∅
       ∧ Session.name fresh = "session-name")
  ∧ (New Reference.store Reference.request "session-name" Reference.dry).1
    = Err (ErrWrap "failed to generate session ID" ErrUnexpectedEOF).
Proof.
  pose proof (New_makes_session_on_every_load_error Reference.store
                Reference.request "session-name" "c2Vzc2lvbi1vbmU")
    as H.
  split; [|split].
  - apply (H Reference.down).
    + vm_compute. reflexivity.
    + reflexivity.
  - eapply (proj1 (proj2 (H Reference.down))).
    + reflexivity.
    + vm_compute. reflexivity.
    + vm_compute. lia.
  - destruct (New Reference.store Reference.request "session-name" Reference.dry)
      as [[fresh|e] w2] eqn:E.
    + vm_compute in E. discriminate.
    + cbn. f_equal. exact (proj2 (proj2 (H Reference.dry)) e w2 E).
Defined.

(** C2, as the claim has it, fails when the server cannot be reached:
    the fetch fails with a transport error, which is not [redis.Nil], and
    [New] returns no error but a new session. *)
Lemma New_swallows_transport_error_counterexample :
  (client.Get "test:session-name:c2Vzc2lvbi1vbmU" Reference.down).1
  = Err (ErrNetwork "connection refused")
  ∧ errors_Is (ErrNetwork "connection refused") RedisNil = false
  ∧ (New Reference.store Reference.request "session-name" Reference.down).1
    ≠ Err (ErrNetwork "connection refused")
  ∧ match (New Reference.store Reference.request "session-name" Reference.down).1 with
    | Ok fresh => Session.isNew fresh = true
    | Err _ => False
    end.
Proof. vm_compute. repeat split. discriminate. Qed.


Lemma RotateID_sets_identifier_before_the_remote_operation_witness :
  (∃ e w', RotateID Reference.store Reference.request
             (Reference.alice, Reference.dry) = (Err e, (Reference.alice, w')))
  ∧ (∃ session' w',
       RotateID Reference.store Reference.request (Reference.alice, Reference.down)
       = (Err (ErrNetwork "connection refused"), (session', w'))
       ∧ Session.ID session' = "CzBVep_E6Q4zWH2ix-wRNluApcrvFDleg6jN8hc8YYY")
  ∧ (∃ session' w',
       RotateID_script Reference.store Reference.request
         (Reference.alice, Reference.down)
       = (Err (ErrNetwork "connection refused"), (session', w'))
       ∧ Session.ID session' = "CzBVep_E6Q4zWH2ix-wRNluApcrvFDleg6jN8hc8YYY").
Proof.
  split; [|split].
  - apply (RotateID_sets_identifier_before_the_remote_operation Reference.store
             Reference.request Reference.alice Reference.dry).
    vm_compute. lia.
  - eexists _, _. split; [vm_compute; reflexivity|].
    eapply (proj2 (RotateID_sets_identifier_before_the_remote_operation
                     Reference.store Reference.request Reference.alice
                     Reference.down)).
    + vm_compute. lia.
    + left. vm_compute. reflexivity.
  - eexists _, _. split; [vm_compute; reflexivity|].
    eapply (proj2 (RotateID_sets_identifier_before_the_remote_operation
                     Reference.store Reference.request Reference.alice
                     Reference.down)).
    + vm_compute. lia.
    + right. vm_compute. reflexivity.
Defined.

(** C3, as the claim has it, fails when the server cannot be reached and
    when the nonce cannot be drawn: [RotateID] returns the error and the
    session no longer holds the old identifier. *)
Lemma RotateID_failure_keeps_new_identifier_counterexample :
  (let '(res, (session', _)) :=
     RotateID Reference.store Reference.request (Reference.alice, Reference.down) in
   res = Err (ErrNetwork "connection refused")
   ∧ Session.ID session' ≠ Session.ID Reference.alice)
  ∧ (let '(res, (session', _)) :=
       RotateID Reference.store Reference.request (Reference.alice, Reference.drying) in
     res = Err (ErrWrap "failed to generate nonce" ErrUnexpectedEOF)
     ∧ Session.ID session' ≠ Session.ID Reference.alice)
  ∧ (let '(res, (session', _)) :=
       RotateID_script Reference.store Reference.request
         (Reference.alice, Reference.down) in
     res = Err (ErrNetwork "connection refused")
     ∧ Session.ID session' ≠ Session.ID Reference.alice).
Proof. vm_compute. repeat split; discriminate. Qed.

Lemma RotateID_writes_session_under_new_identifier_witness :
  ∃ w' encrypted,
    RotateID Reference.store Reference.request (Reference.alice, Reference.late)
    = (Ok tt, (Session.setID Reference.alice
                 "CzBVep_E6Q4zWH2ix-wRNluApcrvFDleg6jN8hc8YYY", w'))
    ∧ redis w' !! "test:session-name:CzBVep_E6Q4zWH2ix-wRNluApcrvFDleg6jN8hc8YYY"
      = Some {| entry_value := encrypted;
                entry_deadline := Some (clock Reference.late + time.Second) |}
    ∧ redis w' !! "test:session-name:c2Vzc2lvbi1vbmU" = None.
Proof.
  edestruct (RotateID_writes_session_under_new_identifier Reference.store
               Reference.request Reference.alice Reference.late)
    as [(w' & HR & _ & Hnew & Hold & _) _].
  - vm_compute. lia.
  - vm_compute. reflexivity.
  - reflexivity.
  - vm_compute. discriminate.
  - vm_compute. discriminate.
  - exists w'. eexists. split; [exact HR|]. split; [exact Hnew|exact Hold].
Defined.

(** C9, as the claim has it, fails on a session that has expired: the
    rotation succeeds, with the transaction and with the script, and the
    entry under the new identifier expires one second after the clock,
    which is not [expiresAt] minus the clock after it.  It fails too on a
    session that was changed in memory since it was saved: the entry
    under the new identifier holds the change and the new identifier, the
    entry it replaces holds neither. *)
Lemma RotateID_expired_session_counterexample :
  (let '(res, (session', w')) :=
     RotateID Reference.store Reference.request (Reference.alice, Reference.late) in
   res = Ok tt
   ∧ match redis w' !! ("test:session-name:" +:+ Session.ID session') with
     | Some e =>
         entry_deadline e = Some (clock Reference.late + time.Second)
         ∧ entry_deadline e
           ≠ Some (clock Reference.late
                   + (Session.expiresAt Reference.alice - clock Reference.late))
     | None => False
     end)
  ∧ (let '(res, (session', w')) :=
       RotateID_script Reference.store Reference.request
         (Reference.alice, Reference.late) in
     res = Ok tt
     ∧ match redis w' !! ("test:session-name:" +:+ Session.ID session') with
       | Some e =>
           entry_deadline e = Some (clock Reference.late + time.Second)
           ∧ entry_deadline e
             ≠ Some (clock Reference.late
                     + (Session.expiresAt Reference.alice - clock Reference.late))
       | None => False
       end)
  ∧ (let '(saved, w1) :=
       Save Reference.store Reference.request Reference.alice Reference.world in
     match Session.Set_ Reference.alice "role" (Some (VString "admin"))
             Reference.noon with
     | Some changed =>
         let '(res, (session', w2)) :=
           RotateID Reference.store Reference.request (changed, w1) in
         saved = Ok tt ∧ res = Ok tt
         ∧ match redis w1 !! ("test:session-name:" +:+ Session.ID Reference.alice),
                 redis w2 !! ("test:session-name:" +:+ Session.ID session') with
           | Some before, Some after =>
               match (DecryptAndVerify (crypto Reference.store) (entry_value before)
                        Session.zero (bytes_of_string "session-name") w2).1,
                     (DecryptAndVerify (crypto Reference.store) (entry_value after)
                        Session.zero (bytes_of_string "session-name") w2).1 with
               | Ok old, Ok new =>
                   Session.Get old "role" = Some None
                   ∧ Session.Get new "role" = Some (Some (VString "admin"))
                   ∧ Session.ID old ≠ Session.ID new
               | _, _ => False
               end
           | _, _ => False
           end
     | None => False
     end).
Proof. vm_compute. repeat split; discriminate. Qed.

End at_work.

(** * Further properties of the package *)

(** ** Identifiers *)

Lemma RawURLEncoding_alphabet : alphabet_ok base64.RawURLEncoding = true.
Proof. vm_compute. reflexivity. Qed.

Lemma RawURLEncoding_url_safe : alphabet_url_safe base64.RawURLEncoding = true.
Proof. vm_compute. reflexivity. Qed.

Lemma enc_char_url_safe i :
  0 ≤ i < 64 → url_safe (base64.enc_char base64.RawURLEncoding i) = true.
Proof.
  intros Hi. pose proof RawURLEncoding_url_safe as H.
  unfold alphabet_url_safe in H. rewrite forallb_forall in H.
  specialize (H (Z.to_nat i)). rewrite Z2Nat.id in H by lia.
  apply H, in_seq. lia.
Qed.

Lemma RawURL_Encode_url_safe (src : bytes) :
  Forall (λ c, url_safe c = true) (base64.Encode base64.RawURLEncoding src).
Proof.
  induction src as [|b0|b0 b1|b0 b1 b2 rest IH] using list_ind3;
    cbn [base64.Encode base64.pad base64.padChar base64.RawURLEncoding app];
    repeat (apply Forall_cons; split);
    try apply Forall_nil; try exact IH;
    first [exact I | apply enc_char_url_safe, sextet_range].
Qed.


Lemma RawURL_decode_encode (src : bytes) :
  base64.decode_quanta base64.RawURLEncoding
    (base64.Encode base64.RawURLEncoding src) = Some src.
Proof.
  pose proof (λ i, alphabet_ok_spec _ i RawURLEncoding_alphabet) as Hab.
  induction src as [|b0|b0 b1|b0 b1 b2 rest IH] using list_ind3.
  - reflexivity.
  - cbn [base64.Encode base64.pad base64.padChar base64.RawURLEncoding app].
    set (v := byte_val b0 * 65536).
    pose proof (byte_val_range b0).
    destruct (Hab (base64.sextet v 18) (sextet_range _ _)) as [E0 _].
    destruct (Hab (base64.sextet v 12) (sextet_range _ _)) as [E1 _].
    cbn [base64.decode_quanta base64.padChar base64.RawURLEncoding].
    rewrite E0, E1. f_equal. f_equal. apply byte_of_Z_val.
    unfold base64.quantum, base64.sextet, v.
    change (2 ^ 18) with 262144. change (2 ^ 12) with 4096.
    Z.div_mod_to_equations. lia.
  - cbn [base64.Encode base64.pad base64.padChar base64.RawURLEncoding app].
    set (v := byte_val b0 * 65536 + byte_val b1 * 256).
    pose proof (byte_val_range b0). pose proof (byte_val_range b1).
    destruct (Hab (base64.sextet v 18) (sextet_range _ _)) as [E0 _].
    destruct (Hab (base64.sextet v 12) (sextet_range _ _)) as [E1 _].
    destruct (Hab (base64.sextet v 6) (sextet_range _ _)) as [E2 _].
    cbn [base64.decode_quanta base64.padChar base64.RawURLEncoding].
    rewrite E0, E1, E2.
    assert (Hq : base64.quantum (base64.sextet v 18) (base64.sextet v 12)
                   (base64.sextet v 6) 0 = v).
    { unfold base64.quantum, base64.sextet, v.
      change (2 ^ 18) with 262144. change (2 ^ 12) with 4096.
      change (2 ^ 6) with 64. Z.div_mod_to_equations. lia. }
    rewrite Hq. f_equal. f_equal; [|f_equal]; apply byte_of_Z_val; unfold v;
      Z.div_mod_to_equations; lia.
  - cbn [base64.Encode].
    set (v := byte_val b0 * 65536 + byte_val b1 * 256 + byte_val b2).
    destruct (quantum_bytes b0 b1 b2) as (Hv & B0 & B1 & B2). fold v in Hv, B0, B1, B2.
    destruct (Hab (base64.sextet v 18) (sextet_range _ _)) as [E0 _].
    destruct (Hab (base64.sextet v 12) (sextet_range _ _)) as [E1 _].
    destruct (Hab (base64.sextet v 6) (sextet_range _ _)) as [E2 _].
    destruct (Hab (base64.sextet v 0) (sextet_range _ _)) as [E3 _].
    rewrite (decode_quanta_full _ _ _ _ _ _ _ _ _ _ E0 E1 E2 E3), IH.
    cbv zeta. rewrite quantum_sextets by exact Hv.
    rewrite B0, B1, B2. reflexivity.
Qed.

Lemma RawURL_EncodeToString_inj (a b : bytes) :
  base64.EncodeToString base64.RawURLEncoding a
  = base64.EncodeToString base64.RawURLEncoding b → a = b.
Proof.
  unfold base64.EncodeToString. intros H.
  apply (f_equal list_ascii_of_string) in H.
  rewrite !list_ascii_of_string_of_list_ascii in H.
  pose proof (RawURL_decode_encode a) as Ha. rewrite H, RawURL_decode_encode in Ha.
  congruence.
Qed.


Lemma has_char_list (c : ascii) (l : list ascii) :
  Forall (λ c', c' ≠ c) l → has_char c (string_of_list_ascii l) = false.
Proof.
  induction 1 as [|c' l Hc _ IH]; cbn; [reflexivity|].
  destruct (decide (c = c')); [congruence|exact IH].
Qed.

Lemma GenerateSessionID_inv {mac : HMAC} (c : Crypto) w id w' :
  GenerateSessionID c w = (Ok id, w') →
  (32 ≤ length (entropy w))%nat
  ∧ id = base64.EncodeToString base64.RawURLEncoding (take 32 (entropy w))
  ∧ w' = set_entropy (drop 32 (entropy w)) w.
Proof.
  destruct (le_lt_dec 32 (length (entropy w))) as [H|H].
  - rewrite (GenerateSessionID_run _ _ H). intros [= <- <-]. auto.
  - rewrite (GenerateSessionID_error _ _ H). discriminate.
Qed.


(** X2. Two identifiers are equal only when they were made of the same
    thirty-two bytes: the encoding loses nothing of what the source
    delivered. *)
Theorem GenerateSessionID_keeps_the_entropy {mac : HMAC}
  (c1 c2 : Crypto) (w1 w2 : World) (id : string) (w1' w2' : World) :
  GenerateSessionID c1 w1 = (Ok id, w1') →
  GenerateSessionID c2 w2 = (Ok id, w2') →
  take 32 (entropy w1) = take 32 (entropy w2).
Proof.
  intros H1 H2.
  apply GenerateSessionID_inv in H1 as (_ & E1 & _).
  apply GenerateSessionID_inv in H2 as (_ & E2 & _).
  apply RawURL_EncodeToString_inj. congruence.
Qed.

(** ** Signatures *)

(** X3. [verify] accepts a signature exactly when it is the HMAC of the
    data under the signing key: a signature of another length or with
    another byte anywhere is refused. *)
Theorem verify_accepts_the_signature_only {mac : HMAC}
  (c : Crypto) (data signature : bytes) :
  verify c data signature = true
  ↔ signature = hmac_sha256 (default [] (signingKey c)) data.
Proof.
  unfold verify, sign. rewrite ConstantTimeCompare_spec.
  destruct (decide _) as [E|E]; split; auto; try discriminate.
Qed.

(** ** The envelope on the wire *)

Section envelope_more.
Context {mac : HMAC} {V : Type} {codec : JSON V}.

Lemma EncryptAndSign_inv (c : Crypto) (v : V) aad w text w' :
  EncryptAndSign c v aad w = (Ok text, w') →
  ∃ js, json_Marshal v = Ok js
        ∧ (@NonceSize (aead c) ≤ length (entropy w))%nat
        ∧ text = envelope c (take (@NonceSize (aead c)) (entropy w)) js aad
        ∧ w' = log (CallSeal (take (@NonceSize (aead c)) (entropy w)) js aad)
                 (set_entropy (drop (@NonceSize (aead c)) (entropy w)) w).
Proof.
  destruct (json_Marshal v) as [js|e] eqn:Hm.
  - destruct (le_lt_dec (@NonceSize (aead c)) (length (entropy w))) as [H|H].
    + rewrite (EncryptAndSign_run c v aad w js Hm H). intros [= <- <-]. eauto.
    + rewrite (EncryptAndSign_nonce_error c v aad w js Hm H). discriminate.
  - rewrite (EncryptAndSign_marshal_error c v aad w e Hm). discriminate.
Qed.

(** X4. The text [EncryptAndSign] returns is the base64 of, in this
    order, the HMAC of what follows (only with a signing key), the nonce,
    and the sealed JSON of the value; the nonce is the next bytes of the
    entropy source, as many as the cipher asks for, and the cipher is
    called once, on that nonce, that JSON and the caller's additional
    data. *)
Theorem EncryptAndSign_wire_format
  {macOK : HMACLaws mac} (c : Crypto) {aeadOK : AEADLaws (aead c)}
  (v : V) (aad : bytes) (w : World) (text : string) (w' : World) :
  EncryptAndSign c v aad w = (Ok text, w') →
  ∃ js,
    let nonce := take (@NonceSize (aead c)) (entropy w) in
    let sealed := @Seal (aead c) [] nonce js aad in
    let body := nonce ++ sealed in
    let decoded := match signingKey c with
                   | Some key => hmac_sha256 key body ++ body
                   | None => body
                   end in
    json_Marshal v = Ok js
    ∧ base64.DecodeString base64.StdEncoding text = Ok decoded
    ∧ length nonce = @NonceSize (aead c)
    ∧ length decoded
      = (match signingKey c with Some _ => 32 | None => 0 end
         + @NonceSize (aead c) + length js + @Overhead (aead c))%nat
    ∧ entropy w' = drop (@NonceSize (aead c)) (entropy w)
    ∧ calls w' = CallSeal nonce js aad :: calls w.
Proof.
  intros H. apply EncryptAndSign_inv in H as (js & Hm & Hent & -> & ->).
  exists js. cbv zeta.
  set (nonce := take (@NonceSize (aead c)) (entropy w)).
  assert (Hn : length nonce = @NonceSize (aead c))
    by (unfold nonce; rewrite length_take; lia).
  split; [exact Hm|]. unfold envelope, sealed_bytes, sign.
  rewrite DecodeString_EncodeToString, Seal_appends.
  split; [destruct (signingKey c); reflexivity|].
  split; [exact Hn|]. split; [|split; reflexivity].
  destruct (signingKey c); rewrite ?length_app, ?hmac_sha256_size, Hn, Seal_length; lia.
Qed.


(** X6. The errors of [DecryptAndVerify] are five: the wrapped error of
    the base64 decoder, [ErrInvalidSessionData], [ErrSignatureInvalid]
    (only with a signing key), [ErrEncryptionFailed], and the wrapped
    error of the JSON decoder.  The first three come before any call to
    the cipher; the last two after exactly one call to [Open] with the
    caller's additional data. *)
Theorem DecryptAndVerify_errors
  (c : Crypto) (text : string) (dest : V) (aad : bytes) (w : World)
  (e : error) (w' : World) :
  DecryptAndVerify c text dest aad w = (Err e, w') →
  (w' = w
   ∧ (e = ErrWrap "failed to decode base64" CorruptInputError
      ∨ e = ErrInvalidSessionData
      ∨ (e = ErrSignatureInvalid ∧ signingKey c ≠ None)))
  ∨ ((∃ nonce ciphertext, w' = log (CallOpen nonce ciphertext aad) w)
     ∧ (e = ErrEncryptionFailed
        ∨ ∃ e0, e = ErrWrap "failed to unmarshal data" e0)).
Proof.
  unfold DecryptAndVerify, aead_Open. run.
  unfold base64.DecodeString.
  destruct (base64.decode_quanta _ _) as [decoded|];
    [|intros [= <- <-]; left; auto].
  destruct (signingKey c) as [key|].
  - destruct (decide _); [intros [= <- <-]; left; auto|].
    destruct (negb _);
      [intros [= <- <-]; left; split; [reflexivity|]; right; right;
       split; [reflexivity|discriminate]|].
    cbn. destruct (Open _ _ _ _).
    + destruct (json_Unmarshal _ _); [discriminate|].
      intros [= <- <-]. right. split; eauto.
    + intros [= <- <-]. right. split; eauto.
  - destruct (decide _); [intros [= <- <-]; left; auto|].
    cbn. destruct (Open _ _ _ _).
    + destruct (json_Unmarshal _ _); [discriminate|].
      intros [= <- <-]. right. split; eauto.
    + intros [= <- <-]. right. split; eauto.
Qed.

End envelope_more.

(** ** The session in memory and in JSON *)

(** X7. A session that is marshalled and unmarshalled, by an encoder that
    reads the record back as it wrote it, comes back with its identifier,
    name and three instants, with every key reading as before, with a map
    of values that is allocated, and with [isNew] false, whatever the
    destination held. *)
Theorem MarshalJSON_UnmarshalJSON_round_trip {dto_json : JSON sessionDTO}
  (s dest : Session.t) (js : bytes) :
  json_Marshal (Session.to_dto s) = Ok js →
  json_Unmarshal js sessionDTO_zero = Ok (Session.to_dto s) →
  Session.MarshalJSON s = Ok js
  ∧ ∃ s', Session.UnmarshalJSON dest js = Ok s'
          ∧ Session.ID s' = Session.ID s ∧ Session.Name s' = Session.Name s
          ∧ Session.CreatedAt s' = Session.CreatedAt s
          ∧ Session.UpdatedAt s' = Session.UpdatedAt s
          ∧ Session.ExpiresAt s' = Session.ExpiresAt s
          ∧ (∀ key, Session.Get s' key = Session.Get s key)
          ∧ Session.values s' ≠ None
          ∧ Session.IsNew s' = false.
Proof.
  intros Hm Hu. split; [exact Hm|].
  unfold Session.UnmarshalJSON. rewrite Hu. eexists. split; [reflexivity|].
  cbn. repeat split.
  - intros key. unfold Session.Get. cbn. destruct (Session.values s); reflexivity.
  - destruct (Session.values s); discriminate.
Qed.

(** X8. [Delete] removes its key and no other, and does not allocate the
    map of a session that has none; [Set] after [Delete], and [Delete]
    after [Set], of one key leave the last of the two. *)
Theorem Delete_removes_one_key
  (s : Session.t) (key other : string) (val : iface) (now : Z) :
  (∃ s', Session.Delete s key now = Some s'
         ∧ Session.Get s' other = (if decide (other = key) then Some None
                                   else Session.Get s other)
         ∧ (Session.values s = None → Session.values s' = None)
         ∧ Session.UpdatedAt s' = now
         ∧ ∃ s'', Session.Set_ s' key val now = Some s''
                  ∧ Session.Get s'' key = Some val)
  ∧ (∃ s' s'', Session.Set_ s key val now = Some s'
               ∧ Session.Delete s' key now = Some s''
               ∧ Session.Get s'' key = Some None
               ∧ Session.Get s'' other = (if decide (other = key) then Some None
                                          else Session.Get s other)).
Proof.
  destruct s as [i n [g|] nw c u e]; split.
  - eexists. split; [reflexivity|]. unfold Session.Get. cbn. repeat split.
    + destruct (decide (other = key)) as [->|Hne].
      * now rewrite lookup_delete_eq.
      * now rewrite lookup_delete_ne by congruence.
    + discriminate.
    + eexists. split; [reflexivity|]. cbn. now rewrite lookup_insert_eq.
  - eexists _, _. split; [reflexivity|]. split; [reflexivity|].
    unfold Session.Get. cbn. split; [now rewrite lookup_delete_eq|].
    destruct (decide (other = key)) as [->|Hne].
    + now rewrite lookup_delete_eq.
    + now rewrite lookup_delete_ne, lookup_insert_ne by congruence.
  - eexists. split; [reflexivity|]. unfold Session.Get. cbn. repeat split.
    + destruct (decide (other = key)); reflexivity.
    + eexists. split; [reflexivity|]. cbn. now rewrite lookup_insert_eq.
  - eexists _, _. split; [reflexivity|]. split; [reflexivity|].
    unfold Session.Get. cbn. split; [now rewrite lookup_delete_eq|].
    destruct (decide (other = key)) as [->|Hne].
    + now rewrite lookup_delete_eq.
    + rewrite lookup_delete_ne, lookup_insert_ne by congruence. reflexivity.
Qed.

(** X9. The earlier [Set], which assigns without allocating, panics on a
    session whose map of values is nil and does what the present [Set]
    does on every other session. *)
Theorem Set_v1_panics_on_nil_map
  (s : Session.t) (key : string) (val : iface) (now : Z) :
  (Session.values s = None → Set_v1 s key val now = None
                             ∧ Session.Set_ s key val now ≠ None)
  ∧ (Session.values s ≠ None → Set_v1 s key val now = Session.Set_ s key val now).
Proof.
  unfold Set_v1, Session.Set_. destruct (Session.values s) as [g|]; split.
  - discriminate.
  - reflexivity.
  - intros _. split; [reflexivity|]. cbn. discriminate.
  - intros H. contradiction.
Qed.

(** ** The store: saving, resolving, destroying *)

Lemma Get_missing key n w :
  up (S n) w = true →
  (∀ e, redis w !! key = Some e → client.live (clock w) e = false) →
  ∃ w', client.Get key w = (Err RedisNil, w')
        ∧ clock w' = clock w ∧ entropy w' = entropy w ∧ redis w' = redis w
        ∧ response w' = response w ∧ calls w' = CallRedis (GET key) :: calls w
        ∧ up n w' = true.
Proof.
  intros Hup Hk. unfold client.Get.
  destruct (run_up (GET key) n w Hup) as (w1 & E & Hc & He & Hr & Hp & Hcl & Hu).
  run. rewrite E. cbn in Hr. rewrite Hr, Hc.
  destruct (redis w !! key) as [e|] eqn:Hl.
  - rewrite (Hk e eq_refl). eexists. split; [reflexivity|]. auto 10.
  - eexists. split; [reflexivity|]. auto 10.
Qed.

Lemma Get_frame key w r w' :
  client.Get key w = (r, w') →
  clock w' = clock w ∧ entropy w' = entropy w ∧ redis w' = redis w
  ∧ response w' = response w.
Proof.
  unfold client.Get. run.
  destruct (client.run (GET key) w) as [[[]|e] w1] eqn:E;
    destruct (run_frame _ _ _ _ E) as (Hc & He & Hp & _ & Hr); cbn in Hr.
  - destruct (redis w1 !! key) as [en|]; [destruct (client.live _ _)|];
      intros [= <- <-]; auto.
  - intros [= <- <-]. auto.
Qed.

Section store_more.
Context {mac : HMAC} {dto_json : JSON sessionDTO}.

Lemma load_missing (s : RedisStore) (name sessionID : string) n w :
  up (S n) w = true →
  (∀ e, redis w !! redisKey s name sessionID = Some e →
        client.live (clock w) e = false) →
  ∃ w', load s name sessionID w = (Err ErrSessionNotFound, w')
        ∧ clock w' = clock w ∧ entropy w' = entropy w ∧ redis w' = redis w
        ∧ response w' = response w
        ∧ calls w' = CallRedis (GET (redisKey s name sessionID)) :: calls w
        ∧ up n w' = true.
Proof.
  intros Hup Hk.
  destruct (Get_missing _ n w Hup Hk) as (w1 & E & H).
  rewrite (load_fetch_failed _ _ _ _ _ _ E). cbn. eauto.
Qed.




Lemma Save_expired (s : RedisStore) (r : Request) (session : Session.t) w :
  Session.expiresAt session - clock w ≤ 0 →
  Save s r session w = (Err ErrSessionExpired, w).
Proof.
  intros H. apply Sub_nonpos in H.
  unfold Save, time.Until, time.Now, Session.ExpiresAt. run.
  destruct (Z.leb_spec (time.Sub (Session.expiresAt session) (clock w)) 0);
    [reflexivity|lia].
Qed.

Context {macOK : HMACLaws mac}.






End store_more.

(** ** The keys of the store *)

Lemma has_char_append (c : ascii) (a b : string) :
  has_char c (a +:+ b) = has_char c a || has_char c b.
Proof.
  induction a as [|x a IH]; [reflexivity|].
  change (String x a +:+ b) with (String x (a +:+ b)). cbn.
  destruct (decide (c = x)); [reflexivity|exact IH].
Qed.

Lemma split_at_last (c : ascii) (a a' b b' : string) :
  has_char c b = false → has_char c b' = false →
  a +:+ String c b = a' +:+ String c b' → a = a' ∧ b = b'.
Proof.
  intros Hb Hb'. revert a'.
  induction a as [|x a IH]; intros [|x' a']; cbn.
  - intros [= ->]. auto.
  - intros [= -> ->]. rewrite has_char_append in Hb. cbn in Hb.
    destruct (decide (x' = x')); [|congruence].
    rewrite orb_true_r in Hb. discriminate.
  - intros [= -> <-]. rewrite has_char_append in Hb'. cbn in Hb'.
    destruct (decide (c = c)); [|congruence].
    rewrite orb_true_r in Hb'. discriminate.
  - intros [= -> H]. destruct (IH a' H) as [-> ->]. auto.
Qed.

Lemma RawURL_EncodeToString_no_colon (l : bytes) :
  has_char ":" (base64.EncodeToString base64.RawURLEncoding l) = false.
Proof.
  unfold base64.EncodeToString. apply has_char_list.
  eapply Forall_impl; [apply RawURL_Encode_url_safe|].
  intros ch Hs ->. vm_compute in Hs. discriminate.
Qed.

(** X12. Within one store two sessions share a key only when they have
    the same name and the same identifier, as long as the identifiers
    hold no colon; the identifiers the package generates hold none, so
    for them the key determines the name and the thirty-two bytes the
    identifier was made of. *)
Theorem redisKey_separates_sessions (s : RedisStore) (name name' : string) :
  (∀ id id', has_char ":" id = false → has_char ":" id' = false →
             redisKey s name id = redisKey s name' id' →
             name = name' ∧ id = id')
  ∧ (∀ l l' : bytes,
       redisKey s name (base64.EncodeToString base64.RawURLEncoding l)
       = redisKey s name' (base64.EncodeToString base64.RawURLEncoding l') →
       name = name' ∧ l = l').
Proof.
  assert (H : ∀ id id', has_char ":" id = false → has_char ":" id' = false →
                        redisKey s name id = redisKey s name' id' →
                        name = name' ∧ id = id').
  { intros id id' Hi Hi' E. unfold redisKey in E. apply append_inj_r in E.
    exact (split_at_last ":" name name' id id' Hi Hi' E). }
  split; [exact H|].
  intros l l' E.
  destruct (H _ _ (RawURL_EncodeToString_no_colon l)
              (RawURL_EncodeToString_no_colon l') E) as [-> E'].
  split; [reflexivity|]. exact (RawURL_EncodeToString_inj _ _ E').
Qed.

(** ** The key space under the store *)

Lemma expiring_insert (db : gmap string Entry) k v d :
  expiring db → expiring (<[k := {| entry_value := v; entry_deadline := Some d |}]> db).
Proof.
  intros H k' e. destruct (decide (k' = k)) as [->|Hne].
  - rewrite lookup_insert_eq. intros [= <-]. cbn. eauto.
  - rewrite lookup_insert_ne by congruence. apply H.
Qed.

Lemma expiring_delete (db : gmap string Entry) k :
  expiring db → expiring (delete k db).
Proof.
  intros H k' e. destruct (decide (k' = k)) as [->|Hne].
  - rewrite lookup_delete_eq. discriminate.
  - rewrite lookup_delete_ne by congruence. apply H.
Qed.

(** A command of the store: every [SET] has a positive expiry. *)
Lemma expiring_apply_command now cmd db :
  match cmd with SET _ _ ttl => 0 < ttl | _ => True end →
  expiring db → expiring (client.apply_command now cmd db).
Proof.
  destruct cmd as [k|k v ttl|k]; cbn; intros Hc H.
  - exact H.
  - destruct (Z.ltb_spec 0 ttl); [|lia]. now apply expiring_insert.
  - now apply expiring_delete.
Qed.

Lemma run_expiring cmd w :
  match cmd with SET _ _ ttl => 0 < ttl | _ => True end →
  expiring (redis w) → expiring (redis (client.run cmd w).2).
Proof.
  intros Hc H. destruct (client.run cmd w) as [[[]|e] w'] eqn:E;
    destruct (run_frame _ _ _ _ E) as (_ & _ & _ & _ & Hr); cbn; rewrite Hr.
  - now apply expiring_apply_command.
  - exact H.
Qed.

Lemma Exec_SET_DEL w newKey encrypted ttl oldKey :
  redis (client.Exec [SET newKey encrypted ttl; DEL oldKey] w).2 = redis w
  ∨ (0 < ttl →
     redis (client.Exec [SET newKey encrypted ttl; DEL oldKey] w).2
     = delete oldKey (<[newKey := {| entry_value := encrypted;
                                     entry_deadline := Some (clock w + ttl) |}]>
                        (redis w))).
Proof.
  unfold client.Exec. run.
  destruct (client.round_trip (log (CallExec _) w)) as [[[]|e] w1] eqn:E;
    apply round_trip_frame in E as (Hc & He & Hr & Hp & Hl); cbn.
  - right. intros Hpos. rewrite Hc, Hr. cbn.
    destruct (Z.ltb_spec 0 ttl); [reflexivity|lia].
  - left. rewrite Hr. reflexivity.
Qed.

Lemma Script_SET_DEL w oldKey newKey encrypted px :
  redis (client.rotateSessionScript_Run oldKey newKey encrypted px w).2 = redis w
  ∨ (0 < px
     ∧ redis (client.rotateSessionScript_Run oldKey newKey encrypted px w).2
       = delete oldKey (<[newKey := {| entry_value := encrypted;
                                       entry_deadline :=
                                         Some (clock w + px * time.Millisecond) |}]>
                          (redis w))).
Proof.
  unfold client.rotateSessionScript_Run. run.
  destruct (client.round_trip (log (CallScript _ _ _) w)) as [[[]|e] w1] eqn:E;
    apply round_trip_frame in E as (Hc & He & Hr & Hp & Hl); cbn.
  - destruct (Z.leb_spec px 0); cbn.
    + left. rewrite Hr. reflexivity.
    + right. split; [assumption|]. rewrite Hc, Hr. cbn.
      destruct (Z.ltb_spec 0 (px * time.Millisecond)); [reflexivity|].
      unfold time.Millisecond in *. lia.
  - left. rewrite Hr. reflexivity.
Qed.

Lemma rotation_ttl_pos remaining : 0 < rotation_ttl remaining.
Proof.
  unfold rotation_ttl, time.Second. destruct (Z.leb_spec remaining 0); lia.
Qed.

Section key_space.
Context {mac : HMAC} {dto_json : JSON sessionDTO}.

Lemma load_frame (s : RedisStore) (name sessionID : string) w res w' :
  let key := redisKey s name sessionID in
  load s name sessionID w = (res, w') →
  clock w' = clock w ∧ entropy w' = entropy w ∧ response w' = response w
  ∧ (∀ k, k ≠ key → redis w' !! k = redis w !! k)
  ∧ match res with
    | Ok session => redis w' = redis w ∧ clock w ≤ Session.expiresAt session
    | Err _ => redis w' = redis w ∨ redis w' = delete key (redis w)
    end.
Proof.
  intros key. unfold load. fold key. run.
  destruct (client.Get key w) as [[encrypted|e] w1] eqn:E1;
    destruct (Get_frame _ _ _ _ E1) as (Hc1 & He1 & Hr1 & Hp1); cbn.
  2:{ destruct (errors_Is e RedisNil); intros [= <- <-]; rewrite Hr1; auto 10. }
  destruct (DecryptAndVerify (crypto s) encrypted Session.zero
              (bytes_of_string name) w1) as [[session|e] w2] eqn:E2;
    destruct (DecryptAndVerify_frame _ _ _ _ _ _ _ E2) as (Hc2 & He2 & Hr2 & Hn2 & Hp2);
    cbn.
  2:{ intros [= <- <-]. rewrite Hc2, He2, Hr2, Hp2, Hr1. auto 10. }
  unfold time.Now, time.After, Session.ExpiresAt, client.Del. run. cbn.
  destruct (Z.ltb_spec (Session.expiresAt session) (clock w2)) as [Hlt|Hge].
  - destruct (client.run (DEL key) w2) as [[[]|e] w3] eqn:E3;
      destruct (run_frame _ _ _ _ E3) as (Hc3 & He3 & Hp3 & _ & Hr3); cbn in *;
      intros [= <- <-];
      rewrite Hc3, He3, Hp3, Hr3, Hc2, He2, Hp2, Hr2, Hr1; repeat split; auto.
    intros k Hk. now rewrite lookup_delete_ne by congruence.
  - cbn. intros [= <- <-]. rewrite Hc2, He2, Hr2, Hp2, Hr1. repeat split; auto. lia.
Qed.

(** X13. What [load] does to the world: the clock, the entropy and the
    response are as they were; when it returns a session the key space is
    as it was and the session has not expired; when it fails the key
    space is as it was or has lost the one key that was asked for, every
    other key being as it was. *)
Theorem load_key_space (s : RedisStore) (name sessionID : string) (w : World) :
  let key := redisKey s name sessionID in
  let res := load s name sessionID w in
  clock res.2 = clock w ∧ entropy res.2 = entropy w
  ∧ response res.2 = response w
  ∧ (∀ k, k ≠ key → redis res.2 !! k = redis w !! k)
  ∧ match res.1 with
    | Ok session =>
        redis res.2 = redis w ∧ clock w ≤ Session.expiresAt session
    | Err _ => redis res.2 = redis w ∨ redis res.2 = delete key (redis w)
    end.
Proof.
  intros key res. unfold res.
  destruct (load s name sessionID w) as [r w'] eqn:E.
  exact (load_frame s name sessionID w r w' E).
Qed.

Lemma load_expiring (s : RedisStore) (name sessionID : string) w :
  expiring (redis w) → expiring (redis (load s name sessionID w).2).
Proof.
  intros H.
  destruct (load s name sessionID w) as [r w'] eqn:E.
  destruct (load_frame s name sessionID w r w' E) as (_ & _ & _ & _ & Hm).
  cbn. destruct r; [destruct Hm as [-> _]; exact H|].
  destruct Hm as [->| ->]; [exact H|now apply expiring_delete].
Qed.

Lemma GenerateSessionID_redis (c : Crypto) w :
  redis (GenerateSessionID c w).2 = redis w.
Proof.
  unfold GenerateSessionID, rand.Read. run. destruct (decide _); reflexivity.
Qed.

(** X14. The store never leaves an entry without an expiry: when every
    entry of the key space has one before [New], [Save], [RotateID] (with
    the transaction or with the script) or [Destroy], every entry has one
    after it, whatever the call returns. *)
Theorem store_writes_no_entry_without_expiry
  (s : RedisStore) (r : Request) (name : string) (session : Session.t) (w : World) :
  expiring (redis w) →
  expiring (redis (New s r name w).2)
  ∧ expiring (redis (Save s r session w).2)
  ∧ expiring (redis (RotateID s r (session, w)).2.2)
  ∧ expiring (redis (RotateID_script s r (session, w)).2.2)
  ∧ expiring (redis (Destroy s r session w).2).
Proof.
  intros H. repeat split.
  - unfold New, Session.NewSession, time.Now. run.
    destruct (Request_Cookie r name) as [sid|e0]; cbn.
    + pose proof (load_expiring s name sid w H) as Hl.
      destruct (load s name sid w) as [[l|e1] w1]; cbn in *; [exact Hl|].
      pose proof (GenerateSessionID_redis (crypto s) w1) as Hg.
      destruct (GenerateSessionID (crypto s) w1) as [[i|e2] w2]; cbn in *;
        now rewrite Hg.
    + pose proof (GenerateSessionID_redis (crypto s) w) as Hg.
      destruct (GenerateSessionID (crypto s) w) as [[i|e2] w2]; cbn in *;
        now rewrite Hg.
  - unfold Save, time.Until, time.Now, client.Set_, NewCookie, http_SetCookie. run.
    destruct (Z.leb_spec (time.Sub (Session.ExpiresAt session) (clock w)) 0) as [|Hpos];
      [exact H|].
    destruct (EncryptAndSign _ _ _ w) as [[encrypted|e1] w1] eqn:Henc;
      destruct (EncryptAndSign_frame _ _ _ _ _ _ Henc) as (Hc & Hr & Hn & Hp);
      cbn; [|now rewrite Hr].
    rewrite <- Hr in H.
    pose proof (run_expiring (SET (redisKey s (Session.Name session) (Session.ID session))
                                encrypted
                                (time.Sub (Session.ExpiresAt session) (clock w)))
                  w1 Hpos H) as Hx.
    destruct (client.run _ w1) as [[[]|e2] w2]; exact Hx.
  - destruct (le_lt_dec 32 (length (entropy w))) as [Hent|Hent];
      [|rewrite (RotateID_without_identifier _ _ _ _ Hent); exact H].
    unfold RotateID, the_session, in_world, on_session. run.
    rewrite (GenerateSessionID_run _ _ Hent). cbn.
    unfold NewCookie, http_SetCookie, time.Until, time.Now. run. cbn.
    destruct (EncryptAndSign _ _ _ _) as [[encrypted|e1] w1] eqn:Henc;
      destruct (EncryptAndSign_frame _ _ _ _ _ _ Henc) as (Hc & Hr & Hn & Hp);
      cbn in Hc, Hr; cbn; [|now rewrite Hr].
    match goal with
    | |- context [client.Exec [SET ?nk ?en ?t; DEL ?ok] w1] =>
        pose proof (Exec_SET_DEL w1 nk en t ok) as Hx;
        assert (Hpos : 0 < t)
          by (rewrite <- Hc; apply (rotation_ttl_pos
                (time.Sub (Session.ExpiresAt
                   (Session.setID session
                      (base64.EncodeToString base64.RawURLEncoding
                         (take 32 (entropy w))))) (clock w1))));
        destruct (client.Exec [SET nk en t; DEL ok] w1) as [[[]|e2] w2]
    end; cbn in *;
      (destruct Hx as [->|Hx];
       [now rewrite Hr
       |rewrite (Hx Hpos), Hr; now apply expiring_delete, expiring_insert]).
  - destruct (le_lt_dec 32 (length (entropy w))) as [Hent|Hent];
      [|rewrite (RotateID_script_without_identifier _ _ _ _ Hent); exact H].
    unfold RotateID_script, the_session, in_world, on_session. run.
    rewrite (GenerateSessionID_run _ _ Hent). cbn.
    unfold NewCookie, http_SetCookie, time.Until, time.Now. run. cbn.
    destruct (EncryptAndSign _ _ _ _) as [[encrypted|e1] w1] eqn:Henc;
      destruct (EncryptAndSign_frame _ _ _ _ _ _ Henc) as (Hc & Hr & Hn & Hp);
      cbn in Hc, Hr; cbn; [|now rewrite Hr].
    match goal with
    | |- context [client.rotateSessionScript_Run ?ok ?nk ?en ?px w1] =>
        pose proof (Script_SET_DEL w1 ok nk en px) as Hx;
        destruct (client.rotateSessionScript_Run ok nk en px w1) as [[[]|e2] w2]
    end; cbn in *;
      (destruct Hx as [->|[_ ->]];
       [now rewrite Hr
       |rewrite Hr; now apply expiring_delete, expiring_insert]).
  - unfold Destroy, client.Del, http_SetCookie. run.
    pose proof (run_expiring (DEL (redisKey s (Session.Name session)
                                     (Session.ID session))) w I H) as Hx.
    destruct (client.run _ w) as [[[]|e] w1]; exact Hx.
Qed.

End key_space.

(** ** The store: rotating, destroying, renewing *)

Lemma Get_calls key w :
  calls (client.Get key w).2 = CallRedis (GET key) :: calls w.
Proof.
  unfold client.Get. run.
  destruct (client.run (GET key) w) as [[[]|e] w1] eqn:E;
    destruct (run_frame _ _ _ _ E) as (_ & _ & _ & Hl & _); [|exact Hl].
  destruct (redis w1 !! key) as [en|]; [destruct (client.live _ _)|]; exact Hl.
Qed.

Lemma DecryptAndVerify_calls {mac : HMAC} {V : Type} {codec : JSON V}
  (c : Crypto) text (dest : V) aad w :
  ∃ later, calls (DecryptAndVerify c text dest aad w).2 = later ++ calls w.
Proof.
  unfold DecryptAndVerify, aead_Open. run.
  destruct (base64.DecodeString _ _); [|now exists []].
  destruct (signingKey c).
  - destruct (decide _); [now exists []|].
    destruct (negb _); [now exists []|]. cbn.
    destruct (Open _ _ _ _); [|eexists [_]; reflexivity].
    destruct (json_Unmarshal _ _); eexists [_]; reflexivity.
  - destruct (decide _); [now exists []|]. cbn.
    destruct (Open _ _ _ _); [|eexists [_]; reflexivity].
    destruct (json_Unmarshal _ _); eexists [_]; reflexivity.
Qed.

Lemma GenerateSessionID_frame {mac : HMAC} (c : Crypto) w :
  clock (GenerateSessionID c w).2 = clock w
  ∧ redis (GenerateSessionID c w).2 = redis w
  ∧ net (GenerateSessionID c w).2 = net w
  ∧ response (GenerateSessionID c w).2 = response w
  ∧ calls (GenerateSessionID c w).2 = calls w.
Proof.
  unfold GenerateSessionID, rand.Read. run. destruct (decide _); auto.
Qed.

Section store_life.
Context {mac : HMAC} {dto_json : JSON sessionDTO}.

Lemma load_calls (s : RedisStore) (name sessionID : string) w :
  ∃ later, calls (load s name sessionID w).2
           = later ++ CallRedis (GET (redisKey s name sessionID)) :: calls w.
Proof.
  unfold load. run.
  pose proof (Get_calls (redisKey s name sessionID) w) as H1.
  destruct (client.Get _ w) as [[encrypted|e] w1]; cbn in *.
  2:{ destruct (errors_Is e RedisNil); cbn; now exists []. }
  destruct (DecryptAndVerify_calls (crypto s) encrypted Session.zero
              (bytes_of_string name) w1) as (l2 & H2).
  destruct (DecryptAndVerify _ _ _ _ w1) as [[session|e] w2]; cbn in *.
  2:{ exists l2. now rewrite H2, H1. }
  unfold time.Now, time.After, client.Del. run. cbn.
  destruct (_ <? _); cbn.
  - destruct (client.run _ w2) as [[[]|e] w3] eqn:E3;
      destruct (run_frame _ _ _ _ E3) as (_ & _ & _ & H3 & _); cbn;
      eexists (_ :: l2); now rewrite H3, H2, H1.
  - exists l2. now rewrite H2, H1.
Qed.

(** X15. [New] goes to the server only for a cookie: on a request
    without the cookie of the name it sends no command and leaves the
    connection and the key space as they were; on a request with it the
    first command it sends is the [GET] of the key of that name and that
    identifier.  In neither case does it write a cookie to the response. *)
Theorem New_fetches_only_for_a_cookie
  (s : RedisStore) (r : Request) (name : string) (w : World) :
  response (New s r name w).2 = response w
  ∧ (∀ e, Request_Cookie r name = Err e →
          calls (New s r name w).2 = calls w
          ∧ net (New s r name w).2 = net w
          ∧ redis (New s r name w).2 = redis w)
  ∧ (∀ sessionID, Request_Cookie r name = Ok sessionID →
       ∃ later, calls (New s r name w).2
                = later ++ CallRedis (GET (redisKey s name sessionID)) :: calls w).
Proof.
  unfold New, Session.NewSession, time.Now. run.
  destruct (Request_Cookie r name) as [sid|e0]; cbn.
  - destruct (load_calls s name sid w) as (later & Hl).
    destruct (load s name sid w) as [[l|e1] w1] eqn:E;
      destruct (load_frame s name sid w _ w1 E) as (_ & _ & Hp & _); cbn in *.
    + split; [exact Hp|]. split; [discriminate|]. intros ? [= <-]. eauto.
    + destruct (GenerateSessionID_frame (crypto s) w1) as (_ & _ & _ & Hgp & Hgl).
      destruct (GenerateSessionID (crypto s) w1) as [[i|e2] w2]; cbn in *;
        (split; [congruence|]; split; [discriminate|]; intros ? [= <-];
         exists later; congruence).
  - destruct (GenerateSessionID_frame (crypto s) w) as (_ & Hgr & Hgn & Hgp & Hgl).
    destruct (GenerateSessionID (crypto s) w) as [[i|e2] w2]; cbn in *;
      (split; [exact Hgp|]; split; [auto|discriminate]).
Qed.

Lemma Save_run (s : RedisStore) (r : Request) (session : Session.t) w encrypted wE :
  let ttl := time.Sub (Session.expiresAt session) (clock w) in
  let key := redisKey s (Session.name session) (Session.id session) in
  0 < ttl →
  EncryptAndSign (crypto s) session (bytes_of_string (Session.name session)) w
  = (Ok encrypted, wE) →
  up 1 w = true →
  ∃ w2, Save s r session w = (Ok tt, w2)
        ∧ redis w2 = <[key := {| entry_value := encrypted;
                                 entry_deadline := Some (clock w + ttl) |}]> (redis w)
        ∧ clock w2 = clock w.
Proof.
  intros ttl key Hpos Henc Hup.
  unfold Save, time.Until, time.Now, client.Set_, NewCookie, http_SetCookie,
    Session.ExpiresAt, Session.Name, Session.ID. run. fold ttl key.
  destruct (Z.leb_spec ttl 0); [lia|]. rewrite Henc.
  destruct (EncryptAndSign_frame _ _ _ _ _ _ Henc) as (Hc & Hr & Hn & Hp).
  rewrite <- (up_net 1 w wE Hn) in Hup.
  destruct (run_up (SET key encrypted ttl) 0 wE Hup)
    as (w2 & -> & Hc2 & He2 & Hr2 & Hp2 & Hl2 & _).
  eexists. split; [reflexivity|]. cbn. rewrite Hr2, Hc2, Hc, Hr. cbn.
  destruct (Z.ltb_spec 0 ttl); [auto|lia].
Qed.

Lemma Save_deadline (s : RedisStore) (r : Request) (session : Session.t) w
  encrypted wE :
  clock w < Session.expiresAt session →
  Session.expiresAt session - clock w ≤ time.maxDuration →
  EncryptAndSign (crypto s) session (bytes_of_string (Session.name session)) w
  = (Ok encrypted, wE) →
  up 1 w = true →
  ∃ w2, Save s r session w = (Ok tt, w2)
        ∧ redis w2 !! redisKey s (Session.name session) (Session.id session)
          = Some {| entry_value := encrypted;
                    entry_deadline := Some (Session.expiresAt session) |}.
Proof.
  intros H1 H2 Henc Hup.
  assert (Hsub : time.Sub (Session.expiresAt session) (clock w)
                 = Session.expiresAt session - clock w).
  { apply Sub_exact. unfold time.minDuration, time.maxDuration in *.
    change (2 ^ 63) with 9223372036854775808 in *. lia. }
  destruct (Save_run s r session w encrypted wE) as (w2 & HS & Hr & _);
    [rewrite Hsub; lia|exact Henc|exact Hup|].
  exists w2. split; [exact HS|]. rewrite Hr, Hsub, lookup_insert_eq.
  do 3 f_equal. lia.
Qed.

(** X16. A session lives as long as its last [Refresh] or [Extend]
    says.  After [Refresh] with a duration that is not positive, [Save]
    fails with [ErrSessionExpired] and nothing is written; after
    [Refresh] with a positive duration, [Save] writes the entry with the
    instant of the refresh plus the duration as its expiry; after
    [Extend] the expiry is the former [expiresAt] plus the extension. *)
Theorem Refresh_and_Extend_set_the_expiry
  (s : RedisStore) (r : Request) (session : Session.t) (d : Z) (now : Z) (w : World) :
  let refreshed := Session.Refresh session d now in
  let extended := Session.Extend session d now in
  let key := redisKey s (Session.name session) (Session.id session) in
  now ≤ clock w →
  (d ≤ 0 → Save s r refreshed w = (Err ErrSessionExpired, w))
  ∧ (clock w < now + d → now + d - clock w ≤ time.maxDuration →
     ∀ encrypted wE,
       EncryptAndSign (crypto s) refreshed (bytes_of_string (Session.name session)) w
       = (Ok encrypted, wE) →
       up 1 w = true →
       ∃ w2, Save s r refreshed w = (Ok tt, w2)
             ∧ redis w2 !! key = Some {| entry_value := encrypted;
                                         entry_deadline := Some (now + d) |})
  ∧ (Session.expiresAt session + d ≤ clock w →
     Save s r extended w = (Err ErrSessionExpired, w))
  ∧ (clock w < Session.expiresAt session + d →
     Session.expiresAt session + d - clock w ≤ time.maxDuration →
     ∀ encrypted wE,
       EncryptAndSign (crypto s) extended (bytes_of_string (Session.name session)) w
       = (Ok encrypted, wE) →
       up 1 w = true →
       ∃ w2, Save s r extended w = (Ok tt, w2)
             ∧ redis w2 !! key
               = Some {| entry_value := encrypted;
                         entry_deadline := Some (Session.expiresAt session + d) |}).
Proof.
  intros refreshed extended key Hnow.
  split; [|split; [|split]].
  - intros Hd. apply Save_expired. cbn. unfold time.Add. lia.
  - intros H1 H2 encrypted wE Henc Hup.
    exact (Save_deadline s r refreshed w encrypted wE H1 H2 Henc Hup).
  - intros Hd. apply Save_expired. cbn. unfold time.Add. lia.
  - intros H1 H2 encrypted wE Henc Hup.
    exact (Save_deadline s r extended w encrypted wE H1 H2 Henc Hup).
Qed.

(** X17. A store whose options have a [MaxAge] that is not positive, or
    so large that its nanoseconds wrap around to a number that is not
    positive, makes sessions that cannot be saved: the session [New]
    makes has its [expiresAt] at or before the instant it was made, and
    [Save] of it fails with [ErrSessionExpired] then and at every later
    instant, writing nothing. *)
Theorem New_with_non_positive_MaxAge_cannot_be_saved
  (s : RedisStore) (r r2 : Request) (name : string) (e : error) (w w2 : World) :
  Request_Cookie r name = Err e →
  (32 ≤ length (entropy w))%nat →
  wrap64 (MaxAge (options s) * time.Second) ≤ 0 →
  clock w ≤ clock w2 →
  ∃ fresh w1,
    New s r name w = (Ok fresh, w1)
    ∧ Session.IsNew fresh = true
    ∧ Session.ExpiresAt fresh ≤ Session.CreatedAt fresh
    ∧ Save s r2 fresh w2 = (Err ErrSessionExpired, w2).
Proof.
  intros Hc Hent Hage Hclock.
  rewrite (New_without_cookie s r name w e Hc Hent).
  eexists _, _. split; [reflexivity|]. split; [reflexivity|]. split.
  - cbn. lia.
  - apply Save_expired. cbn. lia.
Qed.

(** X18. [Destroy] sends one command, the [DEL] of the key of the
    session.  When the server is reached the key is gone and the response
    gets one cookie of the name of the session, with an empty value, a
    negative [MaxAge] and the epoch as its expiry; when it is not, the
    error of the connection is returned and the key space and the
    response are as they were.  Destroying a session that is not stored
    succeeds all the same. *)
Theorem Destroy_deletes_entry_and_cookie
  (s : RedisStore) (r : Request) (session : Session.t) (w : World) :
  let key := redisKey s (Session.name session) (Session.id session) in
  let res := Destroy s r session w in
  calls res.2 = CallRedis (DEL key) :: calls w
  ∧ match res.1 with
    | Ok _ =>
        redis res.2 = delete key (redis w)
        ∧ redis res.2 !! key = None
        ∧ ∃ cookie, response res.2 = response w ++ [cookie]
                    ∧ Cookie_Name cookie = Session.name session
                    ∧ Cookie_Value cookie = ""
                    ∧ Cookie_MaxAge cookie = -1
                    ∧ Cookie_Expires cookie = time.Unix 0 0
                    ∧ Cookie_Path cookie = Path (options s)
    | Err e =>
        head (net w) = Some (Some e)
        ∧ redis res.2 = redis w ∧ response res.2 = response w
    end
  ∧ (up 1 w = true → res.1 = Ok tt).
Proof.
  intros key res. unfold res, Destroy, client.Del, http_SetCookie, client.run.
  fold key. run. unfold client.round_trip, up.
  destruct w as [clk ent db nt resp cl]. cbn.
  destruct nt as [|[e|] nt]; cbn.
  - split; [reflexivity|]. split; [|reflexivity].
    split; [reflexivity|]. split; [apply lookup_delete_eq|].
    eexists. split; [reflexivity|]. repeat split.
  - split; [reflexivity|]. split; [|discriminate]. auto.
  - split; [reflexivity|]. split; [|reflexivity].
    split; [reflexivity|]. split; [apply lookup_delete_eq|].
    eexists. split; [reflexivity|]. repeat split.
Qed.

(** X19. A destroyed session does not resolve: after [Destroy] has
    succeeded, and as long as nothing is written under its key, [load] of
    its identifier reports [ErrSessionNotFound] and [New] on a request
    that still brings the cookie answers with a new session, empty. *)
Theorem Destroy_then_New
  (s : RedisStore) (r r2 : Request) (session : Session.t) (w w1 w2 : World) :
  let name := Session.name session in
  let key := redisKey s name (Session.id session) in
  Destroy s r session w = (Ok tt, w1) →
  Request_Cookie r2 name = Ok (Session.id session) →
  redis w2 !! key = redis w1 !! key →
  up 1 w2 = true →
  (32 ≤ length (entropy w2))%nat →
  (load s name (Session.id session) w2).1 = Err ErrSessionNotFound
  ∧ ∃ fresh w3,
      New s r2 name w2 = (Ok fresh, w3)
      ∧ Session.IsNew fresh = true
      ∧ (∀ k, Session.Get fresh k = Some None)
      ∧ redis w3 = redis w2.
Proof.
  intros name key HD Hc Hk Hup Hent.
  assert (Hgone : redis w1 !! key = None).
  { revert HD. unfold Destroy, client.Del, http_SetCookie. run.
    destruct (client.run _ w) as [[[]|e] w0] eqn:E; [|discriminate].
    destruct (run_frame _ _ _ _ E) as (_ & _ & _ & _ & Hr). cbn in Hr.
    intros [= <-]. cbn. rewrite Hr. apply lookup_delete_eq. }
  rewrite Hgone in Hk.
  destruct (load_missing s name (Session.id session) 0 w2 Hup)
    as (w' & Hl & Hc' & He' & Hr' & Hp' & Hcl' & _).
  { fold key. rewrite Hk. discriminate. }
  rewrite Hl. split; [reflexivity|]. rewrite <- He' in Hent.
  rewrite (New_after_failed_load _ _ _ _ _ _ _ Hc Hl Hent).
  eexists _, _. split; [reflexivity|]. cbn. auto.
Qed.


Context {macOK : HMACLaws mac}.



End store_life.

(** ** Keys *)


(** * The further properties at work *)

Section more_at_work.
Local Existing Instance Reference.keyed_checksum.
Local Existing Instance Reference.record_encoding.


Lemma GenerateSessionID_keeps_the_entropy_witness :
  take 32 (entropy Reference.world) = take 32 (entropy Reference.drying).
Proof.
  eapply (GenerateSessionID_keeps_the_entropy Reference.signing Reference.unsigned
            Reference.world Reference.drying).
  - vm_compute. reflexivity.
  - vm_compute. reflexivity.
Defined.

Lemma EncryptAndSign_wire_format_witness :
  ∃ text w',
    EncryptAndSign Reference.signing Reference.alice
      (bytes_of_string "session-name") Reference.world = (Ok text, w')
    ∧ entropy w' = drop 12 (entropy Reference.world)
    ∧ ∃ decoded, base64.DecodeString base64.StdEncoding text = Ok decoded
                 ∧ (32 + 12 + 16 < length decoded)%nat.
Proof.
  eassert (E : EncryptAndSign Reference.signing Reference.alice
                 (bytes_of_string "session-name") Reference.world = (Ok _, _))
    by (vm_compute; reflexivity).
  destruct (EncryptAndSign_wire_format (macOK := keyed_checksum_laws)
              Reference.signing (aeadOK := cipher_laws Reference.encKey)
              _ _ _ _ _ E) as (js & Hm & Hd & _ & Hl & He & _).
  eexists _, _. split; [exact E|]. split; [exact He|].
  eexists. split; [exact Hd|].
  vm_compute in Hm. injection Hm as <-. vm_compute. lia.
Defined.


Lemma DecryptAndVerify_errors_witness :
  ∃ e w',
    DecryptAndVerify Reference.signing "not base64!" Session.zero
      (bytes_of_string "session-name") Reference.world = (Err e, w')
    ∧ ((w' = Reference.world
        ∧ (e = ErrWrap "failed to decode base64" CorruptInputError
           ∨ e = ErrInvalidSessionData
           ∨ (e = ErrSignatureInvalid ∧ signingKey Reference.signing ≠ None)))
       ∨ ((∃ nonce ciphertext,
             w' = log (CallOpen nonce ciphertext (bytes_of_string "session-name"))
                    Reference.world)
          ∧ (e = ErrEncryptionFailed
             ∨ ∃ e0, e = ErrWrap "failed to unmarshal data" e0))).
Proof.
  eassert (E : DecryptAndVerify Reference.signing "not base64!" Session.zero
                 (bytes_of_string "session-name") Reference.world = (Err _, _))
    by (vm_compute; reflexivity).
  eexists _, _. split; [exact E|].
  exact (DecryptAndVerify_errors _ _ _ _ _ _ _ E).
Defined.

Lemma MarshalJSON_UnmarshalJSON_round_trip_witness :
  ∃ js s', Session.MarshalJSON Reference.alice = Ok js
           ∧ Session.UnmarshalJSON Session.zero js = Ok s'
           ∧ Session.Get s' "user" = Some (Some (VString "alice"))
           ∧ Session.IsNew s' = false.
Proof.
  eassert (Hm : json_Marshal (Session.to_dto Reference.alice) = Ok _)
    by (vm_compute; reflexivity).
  destruct (MarshalJSON_UnmarshalJSON_round_trip Reference.alice Session.zero _ Hm)
    as (HM & s' & HU & _ & _ & _ & _ & _ & Hget & _ & Hnew).
  - vm_compute. reflexivity.
  - eexists _, s'. split; [exact HM|]. split; [exact HU|].
    split; [rewrite Hget; reflexivity|exact Hnew].
Defined.

Lemma Set_v1_panics_on_nil_map_witness :
  Set_v1 Session.zero "user" (Some (VString "alice")) Reference.noon = None
  ∧ Set_v1 Reference.alice "user" (Some (VString "bob")) Reference.noon
    = Session.Set_ Reference.alice "user" (Some (VString "bob")) Reference.noon.
Proof.
  split.
  - apply (Set_v1_panics_on_nil_map Session.zero "user" (Some (VString "alice"))
             Reference.noon).
    reflexivity.
  - apply (Set_v1_panics_on_nil_map Reference.alice "user" (Some (VString "bob"))
             Reference.noon).
    discriminate.
Defined.



Lemma redisKey_separates_sessions_witness :
  redisKey Reference.store "session-name" "c2Vzc2lvbi1vbmU"
  = redisKey Reference.store ("session" +:+ "-name") (Session.id Reference.alice)
  ∧ "session-name" = "session" +:+ "-name"
  ∧ "c2Vzc2lvbi1vbmU" = Session.id Reference.alice.
Proof.
  assert (E : redisKey Reference.store "session-name" "c2Vzc2lvbi1vbmU"
              = redisKey Reference.store ("session" +:+ "-name")
                  (Session.id Reference.alice)) by reflexivity.
  split; [exact E|].
  apply (proj1 (redisKey_separates_sessions Reference.store "session-name"
                  ("session" +:+ "-name")) _ _); [reflexivity|reflexivity|exact E].
Defined.

Lemma store_writes_no_entry_without_expiry_witness :
  expiring (redis (Save Reference.store Reference.request Reference.alice
                     Reference.world).2)
  ∧ expiring (redis (RotateID Reference.store Reference.request
                       (Reference.alice, Reference.late)).2.2).
Proof.
  destruct (store_writes_no_entry_without_expiry Reference.store Reference.request
              "session-name" Reference.alice Reference.world)
    as (_ & HS & _).
  { intros k e H. vm_compute in H. discriminate. }
  destruct (store_writes_no_entry_without_expiry Reference.store Reference.request
              "session-name" Reference.alice Reference.late)
    as (_ & _ & HR & _).
  { intros k e H. vm_compute in H. discriminate. }
  split; [exact HS|exact HR].
Defined.

Lemma New_fetches_only_for_a_cookie_witness :
  calls (New Reference.store {| request_cookies := [] |} "session-name"
           Reference.down).2 = []
  ∧ ∃ later, calls (New Reference.store Reference.request "session-name"
                      Reference.world).2
             = later ++ [CallRedis (GET "test:session-name:c2Vzc2lvbi1vbmU")].
Proof.
  split.
  - eapply (proj1 (proj2 (New_fetches_only_for_a_cookie Reference.store
                            {| request_cookies := [] |} "session-name"
                            Reference.down))).
    reflexivity.
  - apply (proj2 (proj2 (New_fetches_only_for_a_cookie Reference.store
                           Reference.request "session-name" Reference.world))
             "c2Vzc2lvbi1vbmU").
    reflexivity.
Defined.

Lemma Refresh_and_Extend_set_the_expiry_witness :
  Save Reference.store Reference.request
    (Session.Refresh Reference.alice 0 (clock Reference.late)) Reference.late
  = (Err ErrSessionExpired, Reference.late)
  ∧ ∃ w2 encrypted,
      Save Reference.store Reference.request
        (Session.Refresh Reference.alice (60 * time.Second) (clock Reference.late))
        Reference.late = (Ok tt, w2)
      ∧ redis w2 !! "test:session-name:c2Vzc2lvbi1vbmU"
        = Some {| entry_value := encrypted;
                  entry_deadline := Some (clock Reference.late + 60 * time.Second) |}.
Proof.
  pose proof (Refresh_and_Extend_set_the_expiry Reference.store Reference.request
                Reference.alice) as H.
  split.
  - apply (H 0 (clock Reference.late) Reference.late); vm_compute; discriminate.
  - edestruct (proj1 (proj2 (H (60 * time.Second) (clock Reference.late)
                               Reference.late (Z.le_refl _))))
      as (w2 & HS & Hr).
    + vm_compute. reflexivity.
    + vm_compute. discriminate.
    + vm_compute. reflexivity.
    + reflexivity.
    + eexists w2, _. split; [exact HS|exact Hr].
Defined.

Lemma New_with_non_positive_MaxAge_cannot_be_saved_witness :
  let s := NewRedisStore "test:" Reference.signing
             {| Path := "/"; Domain := ""; MaxAge := 0; Secure := true;
                HttpOnly := true; Partitioned := false;
                SameSite := SameSiteLaxMode |} in
  ∃ fresh w1,
    New s {| request_cookies := [] |} "session-name" Reference.world = (Ok fresh, w1)
    ∧ Session.IsNew fresh = true
    ∧ Save s Reference.request fresh (later time.Second w1)
      = (Err ErrSessionExpired, later time.Second w1).
Proof.
  intros s.
  edestruct (New_with_non_positive_MaxAge_cannot_be_saved s
               {| request_cookies := [] |} Reference.request "session-name"
               ErrNoCookie Reference.world
               (later time.Second
                  (New s {| request_cookies := [] |} "session-name"
                     Reference.world).2))
    as (fresh & w1 & HN & Hnew & _ & HS).
  - reflexivity.
  - vm_compute. lia.
  - vm_compute. discriminate.
  - vm_compute. discriminate.
  - exists fresh, w1. split; [exact HN|]. split; [exact Hnew|].
    rewrite HN in HS. exact HS.
Defined.

Lemma Destroy_deletes_entry_and_cookie_witness :
  (Destroy Reference.store Reference.request Reference.alice
     (Save Reference.store Reference.request Reference.alice Reference.world).2).1
  = Ok tt.
Proof.
  apply (Destroy_deletes_entry_and_cookie Reference.store Reference.request
           Reference.alice).
  reflexivity.
Defined.

Lemma Destroy_then_New_witness :
  let w := (Save Reference.store Reference.request Reference.alice
              Reference.world).2 in
  let w1 := (Destroy Reference.store Reference.request Reference.alice w).2 in
  ∃ fresh w3,
    Destroy Reference.store Reference.request Reference.alice w = (Ok tt, w1)
    ∧ New Reference.store Reference.request "session-name" w1 = (Ok fresh, w3)
    ∧ Session.IsNew fresh = true
    ∧ Session.Get fresh "user" = Some None.
Proof.
  intros w w1.
  assert (HD : Destroy Reference.store Reference.request Reference.alice w
               = (Ok tt, w1)) by (vm_compute; reflexivity).
  edestruct (Destroy_then_New Reference.store Reference.request Reference.request
               Reference.alice w w1 w1 HD) as (_ & fresh & w3 & HN & Hnew & Hget & _).
  - reflexivity.
  - reflexivity.
  - reflexivity.
  - vm_compute. lia.
  - exists fresh, w3. split; [exact HD|]. split; [exact HN|].
    split; [exact Hnew|apply Hget].
Defined.



End more_at_work.
